(** * syspagen: the syspage generator of phoenix-rtos-hostutils

    A shallow embedding of [syspagen/syspagen.c] and the properties of its
    allocator, registries and script reader.

    Conventions of the embedding.
    - C integers are [Z] values kept in range by an explicit [wrap].  The
      host is taken to be LP64: [unsigned long] and [size_t] have 64 bits,
      [unsigned int] has 32.
    - [syspage.h] (the types [addr_t], [sysptr_t], [syspage_t],
      [syspage_map_t], [syspage_prog_t] and the [mAttr*] constants) is not
      among the sources; the widths, sizes and constants it fixes are the
      fields of the record [syspage_h], a parameter of every definition.
    - A C string is the [list ascii] of its characters before the
      terminator, so [strcmp(a, b) == 0] is equality of lists.
    - The global [sysgen_common] together with the header at the start of
      the buffer is the record [sysgen_common], threaded through every
      function; a C function of result type [int] becomes a function to
      [Z * sysgen_common].
    - The two circular lists inside the buffer are kept as the sequence of
      their records in [next] order from the anchor; the anchor is [0]
      exactly when the sequence is empty, and linking before the head (at
      [head->prev]) is appending at the end. *)

From Stdlib Require Import ZArith List Ascii String Bool Lia.
Import ListNotations.
Open Scope Z_scope.

(** ** Machine integers *)

Definition wrap (bits x : Z) : Z := x mod 2 ^ bits.

Definition ULONG_MAX : Z := 2 ^ 64 - 1.
Definition EINVAL : Z := 22.
Definition ENOMEM : Z := 12.

(** [ALIGN_ADDR(addr, align)], evaluated in [size_t]. *)
Definition ALIGN_ADDR (addr align : Z) : Z :=
  if align =? 0 then addr
  else Z.land (wrap 64 (addr + (align - 1))) (wrap 64 (Z.lnot (align - 1))).

Definition sizeof_long_long : Z := 8.

Definition SIZE_CMD_ARGV : Z := 10 + 1.
Definition SIZE_CMD_ARG_LINE : Z := 181.

Definition flagSyspageExec : Z := 1.

(** ** Characters and the C library *)

Definition cstring := list ascii.

Definition code (c : ascii) : Z := Z.of_N (N_of_ascii c).

Definition isspace (c : ascii) : bool :=
  (code c =? 32) || ((9 <=? code c) && (code c <=? 13)).

Definition isblank (c : ascii) : bool :=
  (code c =? 32) || (code c =? 9).

Definition isgraph (c : ascii) : bool :=
  (33 <=? code c) && (code c <=? 126).

Definition cstr (s : string) : cstring := list_ascii_of_string s.

Definition strcmp0 (a b : cstring) : bool :=
  if list_eq_dec ascii_dec a b then true else false.

Definition strlen (s : cstring) : Z := Z.of_nat (List.length s).

(** [strncpy(dst, src, n); dst[n] = 0] read back as a string. *)
Definition strncpy (src : cstring) (n : nat) : cstring := firstn n src.

(** The bytes of a buffer read as a C string: everything before the first
    zero byte. *)
Fixpoint until_nul (l : list ascii) : cstring :=
  match l with
  | [] => []
  | c :: r => if code c =? 0 then [] else c :: until_nul r
  end.

Definition digit_val (c : ascii) : option Z :=
  let n := code c in
  if (48 <=? n) && (n <=? 57) then Some (n - 48)
  else if (97 <=? n) && (n <=? 122) then Some (n - 87)
  else if (65 <=? n) && (n <=? 90) then Some (n - 55)
  else None.

(** The longest run of digits of [base] at the head of [s]: its value
    (when at least one digit was read) and what follows it. *)
Fixpoint scan_digits (base : Z) (acc : option Z) (s : cstring)
  : option Z * cstring :=
  match s with
  | [] => (acc, [])
  | c :: r =>
      match digit_val c with
      | Some d =>
          if d <? base
          then scan_digits base
                 (Some (match acc with Some a => a * base + d | None => d end)) r
          else (acc, s)
      | None => (acc, s)
      end
  end.

Fixpoint skip_space (s : cstring) : cstring :=
  match s with
  | [] => []
  | c :: r => if isspace c then skip_space r else s
  end.

Definition is_x (c : ascii) : bool := (code c =? 120) || (code c =? 88).

(** The optional sign of [strtoul]: whether it is a minus, and what
    follows it. *)
Definition strtoul_sign (s1 : cstring) : bool * cstring :=
  match s1 with
  | c :: r => if code c =? 45 then (true, r)
              else if code c =? 43 then (false, r) else (false, s1)
  | [] => (false, s1)
  end.

(** The number [strtoul] reads in base 0 (a [0x] prefix for base 16, a
    leading [0] for base 8, base 10 otherwise): [inl] of its value and of
    what follows the digits, or, when there is no digit to read, [inr] of
    where the end pointer goes if not back to the start of the string
    (to the [x] of a prefix without digits). *)
Definition strtoul_number (s2 : cstring) : (Z * cstring) + option cstring :=
  match s2 with
  | z :: x :: r =>
      if (code z =? 48) && is_x x then
        match scan_digits 16 None r with
        | (Some v, rest) => inl (v, rest)
        | (None, _) => inr (Some (x :: r))
        end
      else
        match scan_digits (if code z =? 48 then 8 else 10) None s2 with
        | (Some v, rest) => inl (v, rest)
        | (None, _) => inr None
        end
  | _ =>
      match scan_digits 10 None s2 with
      | (Some v, rest) => inl (v, rest)
      | (None, _) => inr None
      end
  end.

(** [strtoul(s, &end, 0)]: the value and the string [end] points to.  A
    value beyond [ULONG_MAX] is replaced by [ULONG_MAX]; a minus negates
    in [unsigned long]. *)
Definition strtoul (s : cstring) : Z * cstring :=
  let s1 := skip_space s in
  let '(neg, s2) := strtoul_sign s1 in
  match strtoul_number s2 with
  | inl (v, rest) =>
      (if ULONG_MAX <? v then ULONG_MAX
       else if neg then wrap 64 (- v) else v, rest)
  | inr (Some rest) => (0, rest)
  | inr None => (0, s)
  end.

(** ** The missing header *)

(** What [syspage.h] fixes and the program depends on. *)
Record syspage_h := {
  addr_bits : Z;              (* width of addr_t *)
  sysptr_bits : Z;            (* width of sysptr_t *)
  size_bits : Z;              (* width of syspage_t.size *)
  imgsz_bits : Z;             (* width of syspage_t.hs.imgsz *)
  console_bits : Z;           (* width of syspage_t.console *)
  attr_bits : Z;              (* width of syspage_map_t.attr *)
  id_bits : Z;                (* width of syspage_map_t.id *)
  sizeof_syspage_t : Z;
  sizeof_syspage_map_t : Z;
  sizeof_syspage_prog_t : Z;
  mAttrRead : Z;
  mAttrWrite : Z;
  mAttrExec : Z;
  mAttrShareable : Z;
  mAttrCacheable : Z;
  mAttrBufferable : Z
}.

(** ** Data *)

Record phfs_alias_t := {
  alias_name : cstring;
  alias_addr : Z;
  alias_size : Z
}.

Record syspage_map_t := {
  map_ptr : Z;                (* the address of the record *)
  map_id : Z;
  map_name : cstring;         (* the string at map->name *)
  map_start : Z;
  map_end : Z;
  map_attr : Z;
  map_entries : Z
}.

Record syspage_prog_t := {
  prog_ptr : Z;               (* the address of the record *)
  prog_start : Z;
  prog_end : Z;
  prog_imaps : list Z;        (* the imapSz bytes at prog->imaps *)
  prog_dmaps : list Z;        (* the dmapSz bytes at prog->dmaps *)
  prog_argv : list ascii      (* the argvSz bytes at prog->argv *)
}.

Record sysgen_common := {
  pkernel : Z;
  offs : Z;
  maxsz : Z;
  hs_imgsz : Z;               (* syspage->hs.imgsz *)
  syspage_size : Z;           (* syspage->size *)
  syspage_pkernel : Z;        (* syspage->pkernel *)
  console : Z;                (* syspage->console *)
  maps : list syspage_map_t;  (* the list anchored at syspage->maps *)
  progs : list syspage_prog_t;(* the list anchored at syspage->progs *)
  aliases : list phfs_alias_t (* head of the LIST first *)
}.

Definition set_size (v : Z) (g : sysgen_common) : sysgen_common :=
  {| pkernel := pkernel g; offs := offs g; maxsz := maxsz g;
     hs_imgsz := hs_imgsz g; syspage_size := v;
     syspage_pkernel := syspage_pkernel g; console := console g;
     maps := maps g; progs := progs g; aliases := aliases g |}.

Definition set_imgsz (v : Z) (g : sysgen_common) : sysgen_common :=
  {| pkernel := pkernel g; offs := offs g; maxsz := maxsz g;
     hs_imgsz := v; syspage_size := syspage_size g;
     syspage_pkernel := syspage_pkernel g; console := console g;
     maps := maps g; progs := progs g; aliases := aliases g |}.

Definition set_console (v : Z) (g : sysgen_common) : sysgen_common :=
  {| pkernel := pkernel g; offs := offs g; maxsz := maxsz g;
     hs_imgsz := hs_imgsz g; syspage_size := syspage_size g;
     syspage_pkernel := syspage_pkernel g; console := v;
     maps := maps g; progs := progs g; aliases := aliases g |}.

Definition set_maps (v : list syspage_map_t) (g : sysgen_common)
  : sysgen_common :=
  {| pkernel := pkernel g; offs := offs g; maxsz := maxsz g;
     hs_imgsz := hs_imgsz g; syspage_size := syspage_size g;
     syspage_pkernel := syspage_pkernel g; console := console g;
     maps := v; progs := progs g; aliases := aliases g |}.

Definition set_progs (v : list syspage_prog_t) (g : sysgen_common)
  : sysgen_common :=
  {| pkernel := pkernel g; offs := offs g; maxsz := maxsz g;
     hs_imgsz := hs_imgsz g; syspage_size := syspage_size g;
     syspage_pkernel := syspage_pkernel g; console := console g;
     maps := maps g; progs := v; aliases := aliases g |}.

Definition set_aliases (v : list phfs_alias_t) (g : sysgen_common)
  : sysgen_common :=
  {| pkernel := pkernel g; offs := offs g; maxsz := maxsz g;
     hs_imgsz := hs_imgsz g; syspage_size := syspage_size g;
     syspage_pkernel := syspage_pkernel g; console := console g;
     maps := maps g; progs := progs g; aliases := v |}.

(** ** The program *)

Section Syspagen.

Variable H : syspage_h.

Definition result := (Z * sysgen_common)%type.

(** [sysgen_buffAlloc]: the returned address ([0] on failure) and the
    state after the call. *)
Definition sysgen_buffAlloc (sz : Z) (g : sysgen_common) : result :=
  let newSz := ALIGN_ADDR (wrap 64 (syspage_size g + sz)) sizeof_long_long in
  if newSz >=? maxsz g then (0, g)
  else (wrap (sysptr_bits H) (syspage_size g + pkernel g + offs g),
        set_size (wrap (size_bits H) newSz) g).

(** [LIST_FOREACH] from the head of the list. *)
Definition sysgen_aliasFind (name : cstring) (g : sysgen_common)
  : option phfs_alias_t :=
  find (fun alias => strcmp0 (alias_name alias) name) (aliases g).

(** [sysgen_cmdAlias]; [malloc] is taken to succeed. *)
Definition sysgen_cmdAlias (argv : list cstring) (g : sysgen_common)
  : result :=
  match argv with
  | [_; name; a2; a3] =>
      let '(v2, end2) := strtoul a2 in
      let addr := wrap (addr_bits H) v2 in
      match end2 with
      | _ :: _ => (-1, g)
      | [] =>
          let '(size, end3) := strtoul a3 in
          match end3 with
          | _ :: _ => (-1, g)
          | [] =>
              let g1 :=
                if hs_imgsz g <? wrap 64 (addr + size)
                then set_imgsz (wrap (imgsz_bits H) (addr + size)) g
                else g in
              let alias :=
                {| alias_name := strncpy name 31;
                   alias_addr := wrap (addr_bits H) (addr + pkernel g);
                   alias_size := size |} in
              (0, set_aliases (alias :: aliases g1) g1)
          end
      end
  | _ => (-1, g)
  end.

(** The body of the [do ... while] of [sysgen_mapOverlapping]. *)
Definition map_clash (name : cstring) (start end_ : Z) (map : syspage_map_t)
  : bool :=
  ((map_start map <? end_) && (map_end map >? start))
  || strcmp0 name (map_name map).

Definition sysgen_mapOverlapping (name : cstring) (start end_ : Z)
  (g : sysgen_common) : Z :=
  if existsb (map_clash name start end_) (maps g) then -1 else 0.

(** [sysgen_mapNameResolve]: [Some id] for result [0] with [*id] set (a
    [uint8_t]), [None] for [-1]. *)
Definition sysgen_mapNameResolve (name : cstring) (g : sysgen_common)
  : option Z :=
  match find (fun map => strcmp0 name (map_name map)) (maps g) with
  | Some map => Some (wrap 8 (map_id map))
  | None => None
  end.

(** [sysgen_strAttr2ui]: [Some attr] for result [0], [None] for [-1]. *)
Fixpoint sysgen_strAttr2ui_from (str : cstring) (attr : Z) : option Z :=
  match str with
  | [] => Some attr
  | c :: r =>
      let or_in (flag : Z) :=
        sysgen_strAttr2ui_from r (Z.lor attr (wrap 32 flag)) in
      if Ascii.eqb c "r" then or_in (mAttrRead H)
      else if Ascii.eqb c "w" then or_in (mAttrWrite H)
      else if Ascii.eqb c "x" then or_in (mAttrExec H)
      else if Ascii.eqb c "s" then or_in (mAttrShareable H)
      else if Ascii.eqb c "c" then or_in (mAttrCacheable H)
      else if Ascii.eqb c "b" then or_in (mAttrBufferable H)
      else None
  end.

Definition sysgen_strAttr2ui (str : cstring) : option Z :=
  sysgen_strAttr2ui_from str 0.

Definition no_map : syspage_map_t :=
  {| map_ptr := 0; map_id := 0; map_name := []; map_start := 0;
     map_end := 0; map_attr := 0; map_entries := 0 |}.

(** [sysgen_mapAdd]: the new record goes before the head, that is at the
    end of the sequence; its id comes from the record before it. *)
Definition sysgen_mapAdd (mapName : cstring) (start end_ attr : Z)
  (g : sysgen_common) : result :=
  let '(ptr, g1) := sysgen_buffAlloc (sizeof_syspage_map_t H) g in
  if ptr =? 0 then (-1, g1)
  else
    let len := strlen mapName in
    let '(name, g2) := sysgen_buffAlloc (len + 1) g1 in
    if name =? 0 then (-1, g2)
    else
      let id :=
        match maps g2 with
        | [] => 0
        | _ :: _ => wrap (id_bits H) (map_id (last (maps g2) no_map) + 1)
        end in
      let map :=
        {| map_ptr := ptr; map_id := id; map_name := mapName;
           map_start := start; map_end := end_;
           map_attr := wrap (attr_bits H) attr; map_entries := 0 |} in
      (0, set_maps (maps g2 ++ [map]) g2).

Definition sysgen_cmdMap (argv : list cstring) (g : sysgen_common) : result :=
  match argv with
  | [_; name; a2; a3; a4] =>
      let '(v2, end2) := strtoul a2 in
      let start := wrap (addr_bits H) v2 in
      match end2 with
      | _ :: _ => (-1, g)
      | [] =>
          let '(v3, end3) := strtoul a3 in
          let end_ := wrap (addr_bits H) v3 in
          match end3 with
          | _ :: _ => (-1, g)
          | [] =>
              match sysgen_strAttr2ui a4 with
              | None => (-1, g)
              | Some attr =>
                  let res := sysgen_mapOverlapping name start end_ g in
                  if res <? 0 then (res, g)
                  else sysgen_mapAdd name start end_ attr g
              end
          end
      end
  | _ => (-1, g)
  end.

Definition nul : ascii := ascii_of_N 0.

(** [sysgen_mapsParse]: the buffer after the separators were overwritten
    with terminators, and the number of names in it. *)
Fixpoint sysgen_mapsParse (maps : cstring) (sep : ascii) : list ascii * Z :=
  match maps with
  | [] => ([], 1)
  | c :: r =>
      let '(buf, nb) := sysgen_mapsParse r sep in
      if Ascii.eqb c sep then (nul :: buf, nb + 1) else (c :: buf, nb)
  end.

(** [sysgen_mapsAdd2Prog]: [Some] of the ids written to [mapIDs] for
    result [0], [None] for a failed resolution. *)
Fixpoint sysgen_mapsAdd2Prog (nb : nat) (mapNames : list ascii)
  (g : sysgen_common) : option (list Z) :=
  match nb with
  | O => Some []
  | S k =>
      let name := until_nul mapNames in
      match sysgen_mapNameResolve name g with
      | None => None
      | Some id =>
          match sysgen_mapsAdd2Prog k (skipn (S (List.length name)) mapNames) g with
          | None => None
          | Some ids => Some (id :: ids)
          end
      end
  end.

Definition sysgen_appAdd (name imaps dmaps appArgv : cstring) (flags : Z)
  (g : sysgen_common) : result :=
  let isExec := if Z.land flags flagSyspageExec =? 0 then 0 else 1 in
  match sysgen_aliasFind name g with
  | None => (-1, g)
  | Some alias =>
      let '(ibuf, imapSz) := sysgen_mapsParse imaps ";" in
      let '(dbuf, dmapSz) := sysgen_mapsParse dmaps ";" in
      let len := strlen appArgv in
      let argvSz := isExec + len + 1 in
      let '(ptr, g1) := sysgen_buffAlloc (sizeof_syspage_prog_t H) g in
      if ptr =? 0 then (-1, g1)
      else
        let '(pdmaps, g2) := sysgen_buffAlloc dmapSz g1 in
        let '(pimaps, g3) := sysgen_buffAlloc imapSz g2 in
        let '(pargv, g4) := sysgen_buffAlloc argvSz g3 in
        if (pdmaps =? 0) || (pimaps =? 0) || (pargv =? 0) then (-1, g4)
        else
          let argv :=
            (if isExec =? 0 then [] else ["X"%char]) ++ appArgv ++ [nul] in
          match sysgen_mapsAdd2Prog (Z.to_nat imapSz) ibuf g4 with
          | None => (-1, g4)
          | Some iids =>
              match sysgen_mapsAdd2Prog (Z.to_nat dmapSz) dbuf g4 with
              | None => (-1, g4)
              | Some dids =>
                  let prog :=
                    {| prog_ptr := ptr;
                       prog_start := alias_addr alias;
                       prog_end :=
                         wrap (addr_bits H) (alias_addr alias + alias_size alias);
                       prog_imaps := iids; prog_dmaps := dids;
                       prog_argv := argv |} in
                  (0, set_progs (progs g4 ++ [prog]) g4)
              end
          end
  end.

(** The characters of [s] before the first [;]. *)
Fixpoint before_semicolon (s : cstring) : cstring :=
  match s with
  | [] => []
  | c :: r => if Ascii.eqb c ";" then [] else c :: before_semicolon r
  end.

Definition sysgen_cmdApp (argv : list cstring) (g : sysgen_common) : result :=
  let argc := Z.of_nat (List.length argv) in
  if (argc <? 5) || (argc >? 6) then (-1, g)
  else
    let arg (i : nat) := nth i argv [] in
    let flagged :=
      match arg 2%nat with
      | c0 :: r =>
          if Ascii.eqb c0 "-" then
            match r with
            | [c1] => if Z.lor (code c1) 32 =? 120 then Some (1, 3%nat) else None
            | _ => None
            end
          else Some (0, 2%nat)
      | [] => Some (0, 2%nat)
      end in
    match flagged with
    | None => (-1, g)
    | Some (flags, argvID) =>
        if negb (Z.of_nat argvID =? argc - 3) then (-1, g)
        else
          let appArgv := arg argvID in
          let name := before_semicolon appArgv in
          let imaps := arg (S argvID) in
          let dmaps := arg (S (S argvID)) in
          sysgen_appAdd name imaps dmaps appArgv flags g
    end.

Definition sysgen_cmdConsole (argv : list cstring) (g : sysgen_common)
  : result :=
  match argv with
  | [_; a1] =>
      match snd (strtoul a1) with
      | c :: after =>
          if Ascii.eqb c "." then
            let '(v, endptr) := strtoul after in
            let minor := wrap 32 v in
            match endptr with
            | _ :: _ => (- EINVAL, g)
            | [] => (0, set_console (wrap (console_bits H) minor) g)
            end
          else (- EINVAL, g)
      | [] => (- EINVAL, g)
      end
  | _ => (- EINVAL, g)
  end.

(** The inner [while] of [sysgen_parseArgLine], which copies graphic
    characters while [buf < end]; [room = end - buf]. *)
Fixpoint copy_graph (lines : cstring) (room : nat) : cstring * cstring :=
  match room, lines with
  | S k, c :: r =>
      if isgraph c
      then let '(tok, rest) := copy_graph r k in (c :: tok, rest)
      else ([], lines)
  | _, _ => ([], lines)
  end.

(** The outer loop of [sysgen_parseArgLine]; [used = buf - start] and
    [argv] holds the arguments found so far.  [None] when [fuel] runs out
    (see [parseArgLine_total]). *)
Fixpoint parseArgLine_loop (fuel : nat) (lines : cstring) (used bufsz argvsz : Z)
  (argv : list cstring) : option (Z * list cstring) :=
  match fuel with
  | O => None
  | S f =>
      let argc := Z.of_nat (List.length argv) in
      match lines with
      | [] => Some (argc, argv)
      | c :: r =>
          if isspace c then
            if isblank c then parseArgLine_loop f r used bufsz argvsz argv
            else Some (argc, argv)
          else if argc + 1 >=? argvsz then Some (- EINVAL, argv)
          else
            let '(tok, rest) := copy_graph lines (Z.to_nat (bufsz - used)) in
            let used' := used + strlen tok in
            if used' >=? bufsz then Some (- ENOMEM, argv ++ [tok])
            else parseArgLine_loop f rest (used' + 1) bufsz argvsz (argv ++ [tok])
      end
  end.

Definition parseArgLine_fuel (lines : cstring) (argvsz : Z) : nat :=
  S (List.length lines + Z.to_nat argvsz).

(** [sysgen_parseArgLine]: the result ([argc] or a negated errno) and the
    argument vector. *)
Definition sysgen_parseArgLine (lines : cstring) (bufsz argvsz : Z)
  : Z * list cstring :=
  match parseArgLine_loop (parseArgLine_fuel lines argvsz) lines 0 bufsz argvsz []
  with
  | Some r => r
  | None => (- EINVAL, [])
  end.

Definition cmd_t := (cstring * (list cstring -> sysgen_common -> result))%type.

Definition cmds : list cmd_t :=
  [ (cstr "alias", sysgen_cmdAlias);
    (cstr "map", sysgen_cmdMap);
    (cstr "app", sysgen_cmdApp);
    (cstr "console", sysgen_cmdConsole) ].

(** [getline]: the file cut after every newline; no line is empty. *)
Fixpoint getlines (cur : list ascii) (file : list ascii) : list (list ascii) :=
  match file with
  | [] => match cur with [] => [] | _ => [cur] end
  | c :: r =>
      if code c =? 10 then (cur ++ [c]) :: getlines [] r
      else getlines (cur ++ [c]) r
  end.

(** The [for] over [cmds]: the command run for [argv], if any. *)
Definition find_cmd (argv : list cstring) : option cmd_t :=
  find (fun cmd => strcmp0 (nth 0%nat argv []) (fst cmd)) cmds.

(** The [while] of [sysgen_parseScript] over the lines [getline] gives; a
    line whose first byte is zero ends it with result [0]. *)
Fixpoint script_loop (lines : list (list ascii)) (g : sysgen_common) : result :=
  match lines with
  | [] => (0, g)
  | line :: rest =>
      match until_nul line with
      | [] => (0, g)
      | _ :: _ =>
          let '(argc, argv) :=
            sysgen_parseArgLine (until_nul line) SIZE_CMD_ARG_LINE SIZE_CMD_ARGV in
          if argc =? 0 then script_loop rest g
          else if argc <? 0 then (argc, g)
          else
            match find_cmd argv with
            | None => script_loop rest g
            | Some cmd =>
                let '(ret, g') := snd cmd argv g in
                if ret <? 0 then (ret, g') else script_loop rest g'
            end
      end
  end.

(** [sysgen_parseScript] on the content of the file, [None] when it cannot
    be opened. *)
Definition sysgen_parseScript (file : option (list ascii)) (g : sysgen_common)
  : result :=
  match file with
  | None => (-1, g)
  | Some content => script_loop (getlines [] content) g
  end.

(** The state [main] builds before the scripts are read; the buffer comes
    zeroed from [calloc]. *)
Definition sysgen_init (pk off mx : Z) : sysgen_common :=
  {| pkernel := pk; offs := off; maxsz := mx;
     hs_imgsz := 0;
     syspage_size :=
       wrap (size_bits H) (ALIGN_ADDR (sizeof_syspage_t H) sizeof_long_long);
     syspage_pkernel := pk;
     console := 0; maps := []; progs := []; aliases := [] |}.

(** The two scripts of [main], in order. *)
Definition sysgen_scripts (preinit user : option (list ascii))
  (g : sysgen_common) : result :=
  let '(r1, g1) := sysgen_parseScript preinit g in
  if r1 <? 0 then (r1, g1) else sysgen_parseScript user g1.

(** ** States the program can reach *)

(** The states met after [main] has set up the buffer: the allocator, the
    four commands and the script reader, applied any number of times to
    any arguments. *)
Inductive reachable (pk off mx : Z) : sysgen_common -> Prop :=
| reach_init : reachable pk off mx (sysgen_init pk off mx)
| reach_alloc g sz :
    reachable pk off mx g ->
    reachable pk off mx (snd (sysgen_buffAlloc sz g))
| reach_cmd g cmd argv :
    reachable pk off mx g -> In cmd cmds ->
    reachable pk off mx (snd (snd cmd argv g))
| reach_script g file :
    reachable pk off mx g ->
    reachable pk off mx (snd (sysgen_parseScript file g)).

(** The states a run of allocations leads to. *)
Inductive alloc_chain : sysgen_common -> sysgen_common -> Prop :=
| chain_nil g : alloc_chain g g
| chain_step g sz g' :
    alloc_chain (snd (sysgen_buffAlloc sz g)) g' -> alloc_chain g g'.

(** The id [sysgen_mapAdd] gives to the map added after those of [l]. *)
Definition next_id (l : list syspage_map_t) : Z :=
  match l with
  | [] => 0
  | _ :: _ => wrap (id_bits H) (map_id (last l no_map) + 1)
  end.

(** What an operation may do to the arena and to the maps: the mark moves
    as by a run of allocations, and at most one map is added, after the
    others, clear of them, with the next id. *)
Definition effect (g g' : sysgen_common) : Prop :=
  (exists g1, alloc_chain g g1 /\ syspage_size g' = syspage_size g1 /\
              maxsz g' = maxsz g) /\
  (maps g' = maps g \/
   exists m, maps g' = maps g ++ [m] /\
             existsb (map_clash (map_name m) (map_start m) (map_end m)) (maps g)
             = false /\
             map_id m = next_id (maps g)).

(** A sequence of [alias] commands, run whatever each one returns. *)
Definition define_seq (defs : list (list cstring)) (g : sysgen_common)
  : sysgen_common :=
  fold_left (fun g argv => snd (sysgen_cmdAlias argv g)) defs g.

End Syspagen.

(** ** Notions the properties are stated with *)

(** [x] rounded up to a multiple of 8, without the wrap-around. *)
Definition align8 (x : Z) : Z := 8 * ((x + 7) / 8).

(** Every field is at least a byte wide. *)
Definition header_ok (H : syspage_h) : Prop :=
  8 <= addr_bits H /\ 8 <= sysptr_bits H /\ 8 <= size_bits H /\
  8 <= id_bits H.

(** The half-open intervals [[s1, e1)] and [[s2, e2)] share a point. *)
Definition intersects (s1 e1 s2 e2 : Z) : Prop :=
  exists x, s1 <= x < e1 /\ s2 <= x < e2.

Definition maps_apart (m1 m2 : syspage_map_t) : Prop :=
  ~ intersects (map_start m1) (map_end m1) (map_start m2) (map_end m2) /\
  map_name m1 <> map_name m2.

(** The arena part of the invariant: the mark is a multiple of 8 inside
    the buffer. *)
Definition arena_ok (g : sysgen_common) : Prop :=
  syspage_size g mod 8 = 0 /\ 0 <= syspage_size g <= maxsz g.

(** The ids of a sequence of maps count up from 0 in a field of [bits]
    bits. *)
Definition ids_count_up (bits : Z) (l : list syspage_map_t) : Prop :=
  forall k m, nth_error l k = Some m -> map_id m = wrap bits (Z.of_nat k).

Definition maps_inv (bits : Z) (l : list syspage_map_t) : Prop :=
  ForallOrdPairs maps_apart l /\ ids_count_up bits l.

(** The console token as the spec words it: an integer, the separator, an
    integer, and nothing else.  An integer is a non-empty string that
    [strtoul] reads to its end. *)
Definition integer_token (s : cstring) : Prop :=
  s <> [] /\ snd (strtoul s) = [].

Definition spec_console_format (tok : cstring) : Prop :=
  exists a b, tok = a ++ "."%char :: b /\ integer_token a /\ integer_token b.

(** ** A concrete header *)

(** Modelled from the spec: [syspage.h] is missing from the sources.  A
    header for a 32-bit target holding the fields the spec lists for the
    Header, Map and Program records: every address, size and link field
    has 4 bytes, the map id has 1 byte (ids are read and stored as
    [uint8_t] by [sysgen_mapNameResolve] and [sysgen_mapsAdd2Prog]), the
    records are packed, and the attribute letters take the bits 0 to 5 in
    the order the spec names them. *)
Definition h32 : syspage_h :=
  {| addr_bits := 32; sysptr_bits := 32; size_bits := 32; imgsz_bits := 32;
     console_bits := 32; attr_bits := 32; id_bits := 8;
     sizeof_syspage_t := 24; sizeof_syspage_map_t := 29;
     sizeof_syspage_prog_t := 36;
     mAttrRead := 1; mAttrWrite := 2; mAttrExec := 4;
     mAttrShareable := 8; mAttrCacheable := 16; mAttrBufferable := 32 |}.

Definition newline : ascii := ascii_of_N 10.

(** A script given by its lines, each ended by a newline. *)
Definition script (ls : list string) : list ascii :=
  flat_map (fun l => cstr l ++ [newline]) ls.

(** The script of Example 1 of the spec. *)
Definition example1 : list ascii :=
  script [ "alias app1 0x1000 0x200"; "map ocram 0x0 0x10000 rwx";
           "app app1 ocram ocram" ]%string.

(** The same with the device argument [sysgen_cmdApp] asks for. *)
Definition example1_dev : list ascii :=
  script [ "alias app1 0x1000 0x200"; "map ocram 0x0 0x10000 rwx";
           "app flash0 app1 ocram ocram" ]%string.

Definition hexdigit (n : nat) : ascii :=
  nth n (cstr "0123456789abcdef") "0"%char.

Definition hex3 (k : nat) : cstring :=
  [hexdigit (k / 256); hexdigit ((k / 16) mod 16); hexdigit (k mod 16)].

(** The line [map m<kkk> 0x<kkk>0 0x<kkk>8 r], with [kkk] the three hex
    digits of [k]: a map of its own name on 8 bytes of its own. *)
Definition map_line (k : nat) : list ascii :=
  cstr "map m" ++ hex3 k ++ cstr " 0x" ++ hex3 k ++ cstr "0 0x" ++ hex3 k
  ++ cstr "8 r" ++ [newline].

Definition many_maps (n : nat) : list ascii := flat_map map_line (seq 0 n).

(** A name of 40 characters and its first 31. *)
Definition name40 : cstring := repeat "a"%char 40.
Definition name31 : cstring := repeat "a"%char 31.

(** The configurations in which the script [example1_dev] has room: the
    records, the name, the two id arrays and the argument string fit below
    the capacity, the capacity fits the size field, and the addresses
    involved are positive and fit their fields. *)
Definition example1_fits (H : syspage_h) (pk off mx : Z) : Prop :=
  0 < sizeof_syspage_t H /\ 0 <= sizeof_syspage_map_t H /\
  0 <= sizeof_syspage_prog_t H /\
  align8 (align8 (align8 (align8 (sizeof_syspage_t H)
                          + sizeof_syspage_map_t H) + 6)
          + sizeof_syspage_prog_t H) + 24 < mx /\
  mx <= 2 ^ size_bits H /\ mx < 2 ^ 63 /\
  0 <= pk + off /\ pk + off + mx <= 2 ^ sysptr_bits H /\
  0 <= pk /\ pk + 4608 < 2 ^ addr_bits H.

(** Room for allocations in a state: the mark is positive, and neither
    the marks nor the addresses up to the capacity are cut by their
    fields. *)
Definition room (H : syspage_h) (g : sysgen_common) : Prop :=
  0 < syspage_size g /\ maxsz g <= 2 ^ size_bits H /\ maxsz g < 2 ^ 63 /\
  0 <= pkernel g + offs g /\
  pkernel g + offs g + maxsz g <= 2 ^ sysptr_bits H.

(** ** Concrete states and inputs *)

(** The state [main] starts from with the header [h32], load address 0,
    offset 0 and a capacity of 4096 bytes. *)
Definition g0 : sysgen_common := sysgen_init h32 0 0 4096.

Definition argv_map_ocram : list cstring :=
  [cstr "map"; cstr "ocram"; cstr "0x0"; cstr "0x10000"; cstr "rwx"].

(** [g0] after [map ocram 0x0 0x10000 rwx]. *)
Definition g_ocram : sysgen_common := snd (sysgen_cmdMap h32 argv_map_ocram g0).

Definition map_ocram : syspage_map_t :=
  {| map_ptr := 24; map_id := 0; map_name := cstr "ocram"; map_start := 0;
     map_end := 65536; map_attr := 7; map_entries := 0 |}.


(** [g0] after [alias aaa...a 0 0] with a name of 40 characters. *)
Definition g_name40 : sysgen_common :=
  snd (sysgen_cmdAlias h32 [cstr "alias"; name40; cstr "0"; cstr "0"] g0).

(** ** Notions for the further properties *)

(** The strings of [ns] with [sep] between them. *)
Fixpoint join (sep : ascii) (ns : list cstring) : list ascii :=
  match ns with
  | [] => []
  | [n] => n
  | n :: r => n ++ sep :: join sep r
  end.

(** The ids of the named maps, in order, if every name resolves. *)
Fixpoint resolve_all (ns : list cstring) (g : sysgen_common) : option (list Z) :=
  match ns with
  | [] => Some []
  | n :: r =>
      match sysgen_mapNameResolve n g with
      | None => None
      | Some id =>
          match resolve_all r g with
          | None => None
          | Some ids => Some (id :: ids)
          end
      end
  end.

(** The letters [sysgen_strAttr2ui] knows. *)
Definition attr_letter (c : ascii) : bool :=
  existsb (Ascii.eqb c) (cstr "rwxscb").

(** An argument as [sysgen_parseArgLine] produces it: graphic characters,
    at least one. *)
Definition token_ok (t : cstring) : Prop :=
  t <> [] /\ Forall (fun c => isgraph c = true) t.

(** The bytes a list of arguments takes in the argument buffer, each with
    its terminator. *)
Definition args_size (toks : list cstring) : Z :=
  fold_right (fun t n => strlen t + 1 + n) 0 toks.

Definition space : ascii := " "%char.

(** The registries of [g'] extend those of [g] and the configuration is
    the same: maps and programs were added at the end, aliases at the
    head, and none was changed or removed. *)
Definition grows (g g' : sysgen_common) : Prop :=
  (exists l, maps g' = maps g ++ l) /\
  (exists l, progs g' = progs g ++ l) /\
  (exists l, aliases g' = l ++ aliases g) /\
  pkernel g' = pkernel g /\ offs g' = offs g /\ maxsz g' = maxsz g.


(** An [unsigned long] converted to [off_t], which is signed and 64 bits
    wide on the host. *)
Definition to_off_t (v : Z) : Z := if v <? 2 ^ 63 then v else v - 2 ^ 64.

(** The case of the option [-s <pimg:offs:sz>] in the option loop of
    [main]: [Some] of the load address, the offset and the capacity it
    stores in [sysgen_common], [None] where [main] returns
    [EXIT_FAILURE]. *)
Definition sysgen_opt_s (H : syspage_h) (optarg : cstring)
  : option (Z * Z * Z) :=
  let '(v1, end1) := strtoul optarg in
  match end1 with
  | c1 :: r1 =>
      if Ascii.eqb c1 ":" then
        let '(v2, end2) := strtoul r1 in
        match end2 with
        | c2 :: r2 =>
            if Ascii.eqb c2 ":" then
              let '(v3, end3) := strtoul r2 in
              match end3 with
              | [] => Some (wrap (addr_bits H) v1, to_off_t v2, v3)
              | _ :: _ => None
              end
            else None
        | [] => None
        end
      else None
  | [] => None
  end.

(** A map whose interval is not empty. *)
Definition map_proper (m : syspage_map_t) : Prop := map_start m < map_end m.


Definition argv_app_x : list cstring :=
  [cstr "app"; cstr "flash0"; cstr "-x"; cstr "app1;arg"; cstr "ocram";
   cstr "ocram"].



(** A configuration in which neither the mark nor a size the program asks
    the allocator for wraps around: the capacity fits the size field, and
    the map and program records have a size of their own. *)
Definition no_wrap (H : syspage_h) (mx : Z) : Prop :=
  3 <= size_bits H <= 62 /\ mx <= 2 ^ size_bits H /\
  0 < sizeof_syspage_map_t H < 2 ^ 62 /\
  0 <= sizeof_syspage_prog_t H < 2 ^ 62.

(** Arguments as a script line gives them: each fits the argument buffer
    of [sysgen_parseScript]. *)
Definition short_args (argv : list cstring) : Prop :=
  Forall (fun a => strlen a <= SIZE_CMD_ARG_LINE) argv.

(** The mark is a multiple of 8 that has not wrapped, and every map has
    taken at least 8 bytes below it. *)
Definition maps_paid (g : sysgen_common) : Prop :=
  syspage_size g mod 8 = 0 /\ 0 <= syspage_size g < 2 ^ 62 /\
  8 * Z.of_nat (List.length (maps g)) <= syspage_size g /\
  (maps g <> [] -> syspage_size g < maxsz g).

(** * Properties *)

(** ** Arithmetic of the alignment *)

Lemma land_mask8 (x : Z) :
  0 <= x < 2 ^ 64 -> Z.land x (wrap 64 (Z.lnot 7)) = 8 * (x / 8).
Proof.
  intros Hx. unfold wrap.
  rewrite <- (Z.land_ones (Z.lnot 7) 64) by lia.
  rewrite Z.land_comm, <- Z.land_assoc, (Z.land_comm (Z.ones 64)).
  rewrite (Z.land_ones x 64) by lia.
  rewrite (Z.mod_small x) by lia.
  rewrite Z.land_comm, <- Z.ldiff_land.
  change 7 with (Z.ones 3).
  rewrite Z.ldiff_ones_r by lia.
  rewrite Z.shiftl_mul_pow2, Z.shiftr_div_pow2 by lia.
  change (2 ^ 3) with 8. lia.
Qed.

Lemma ALIGN_ADDR_8 (x : Z) :
  ALIGN_ADDR x sizeof_long_long = 8 * (wrap 64 (x + 7) / 8).
Proof.
  unfold ALIGN_ADDR, sizeof_long_long. simpl (8 =? 0). cbv iota.
  change (8 - 1) with 7. apply land_mask8.
  unfold wrap. apply Z.mod_pos_bound. lia.
Qed.

Lemma ALIGN_ADDR_8_small (x : Z) :
  0 <= x -> x + 7 < 2 ^ 64 -> ALIGN_ADDR x sizeof_long_long = align8 x.
Proof.
  intros. rewrite ALIGN_ADDR_8. unfold wrap, align8.
  rewrite Z.mod_small by lia. reflexivity.
Qed.

Lemma ALIGN_ADDR_8_mod (x : Z) : ALIGN_ADDR x sizeof_long_long mod 8 = 0.
Proof.
  rewrite ALIGN_ADDR_8, Z.mul_comm. apply Z.mod_mul. lia.
Qed.


Lemma align8_bounds (x : Z) : x <= align8 x < x + 8.
Proof.
  unfold align8.
  pose proof (Z.div_mod (x + 7) 8 ltac:(lia)).
  pose proof (Z.mod_pos_bound (x + 7) 8 ltac:(lia)). lia.
Qed.

Lemma align8_mod (x : Z) : align8 x mod 8 = 0.
Proof. unfold align8. rewrite Z.mul_comm. apply Z.mod_mul. lia. Qed.

Lemma align8_id (x : Z) : x mod 8 = 0 -> align8 x = x.
Proof.
  intros Hm. unfold align8.
  pose proof (Z.div_mod x 8 ltac:(lia)).
  replace (x + 7) with (x / 8 * 8 + 7) by lia.
  rewrite Z.div_add_l by lia. change (7 / 8) with 0. lia.
Qed.

Lemma wrap_mod8 (bits x : Z) : 3 <= bits -> wrap bits x mod 8 = x mod 8.
Proof.
  intros Hb. unfold wrap.
  replace (2 ^ bits) with (8 * 2 ^ (bits - 3)).
  - rewrite Z.rem_mul_r by (try apply Z.pow_nonzero; lia).
    rewrite (Z.mul_comm 8), Z.mod_add by lia.
    apply Z.mod_mod. lia.
  - change 8 with (2 ^ 3). rewrite <- Z.pow_add_r by lia. f_equal. lia.
Qed.

Lemma wrap_small (bits x : Z) : 0 <= x < 2 ^ bits -> wrap bits x = x.
Proof. intros. apply Z.mod_small. assumption. Qed.


Lemma wrap_wrap_succ (bits x : Z) :
  wrap bits (wrap bits x + 1) = wrap bits (x + 1).
Proof.
  unfold wrap. destruct (Z.eq_dec (2 ^ bits) 0) as [E | E].
  - rewrite E. rewrite !Z.mod_0_r. reflexivity.
  - rewrite Z.add_mod_idemp_l by assumption. reflexivity.
Qed.

(** ** The allocator *)

Section Allocator.

Variable H : syspage_h.

Lemma buffAlloc_fail (sz : Z) (g : sysgen_common) :
  maxsz g <= ALIGN_ADDR (wrap 64 (syspage_size g + sz)) sizeof_long_long ->
  sysgen_buffAlloc H sz g = (0, g).
Proof.
  intros Hge. unfold sysgen_buffAlloc.
  destruct (Z.geb_spec (ALIGN_ADDR (wrap 64 (syspage_size g + sz)) sizeof_long_long)
              (maxsz g)); [reflexivity | lia].
Qed.

Lemma buffAlloc_pass (sz : Z) (g : sysgen_common) :
  ALIGN_ADDR (wrap 64 (syspage_size g + sz)) sizeof_long_long < maxsz g ->
  sysgen_buffAlloc H sz g =
  (wrap (sysptr_bits H) (syspage_size g + pkernel g + offs g),
   set_size (wrap (size_bits H)
               (ALIGN_ADDR (wrap 64 (syspage_size g + sz)) sizeof_long_long)) g).
Proof.
  intros Hlt. unfold sysgen_buffAlloc.
  destruct (Z.geb_spec (ALIGN_ADDR (wrap 64 (syspage_size g + sz)) sizeof_long_long)
              (maxsz g)); [lia | reflexivity].
Qed.

Lemma buffAlloc_frame (sz : Z) (g : sysgen_common) :
  exists v, snd (sysgen_buffAlloc H sz g) = set_size v g.
Proof.
  unfold sysgen_buffAlloc.
  destruct (_ >=? _); simpl.
  - exists (syspage_size g). destruct g; reflexivity.
  - eexists; reflexivity.
Qed.


Lemma alloc_chain_frame (g g' : sysgen_common) :
  alloc_chain H g g' -> exists v, g' = set_size v g.
Proof.
  induction 1 as [g | g sz g' _ [v Hv]].
  - exists (syspage_size g). destruct g; reflexivity.
  - destruct (buffAlloc_frame sz g) as [w Hw]. rewrite Hw in Hv.
    exists v. rewrite Hv. reflexivity.
Qed.


Lemma alloc_chain_one (sz : Z) (g : sysgen_common) :
  alloc_chain H g (snd (sysgen_buffAlloc H sz g)).
Proof. eapply chain_step. apply chain_nil. Qed.

Lemma alloc_chain_trans (g1 g2 g3 : sysgen_common) :
  alloc_chain H g1 g2 -> alloc_chain H g2 g3 -> alloc_chain H g1 g3.
Proof.
  induction 1; intros; [assumption |].
  eapply chain_step. apply IHalloc_chain. assumption.
Qed.

(** C3: an allocation fails, returning the null address and leaving the
    state as it was, exactly when the candidate mark (the current mark
    plus the size, rounded up to 8) meets or exceeds the capacity;
    otherwise it returns the address of the old mark, advances the mark to
    the candidate, and the region it hands out ends inside the capacity.
    Where the address of the old mark is not itself the null address, the
    null address is returned in the first case only. *)
Theorem buffAlloc_bound (sz : Z) (g : sysgen_common) :
  0 <= syspage_size g -> 0 <= sz -> syspage_size g + sz + 7 < 2 ^ 64 ->
  let cand := align8 (syspage_size g + sz) in
  let r := sysgen_buffAlloc H sz g in
  (maxsz g <= cand -> r = (0, g)) /\
  (cand < maxsz g ->
   r = (wrap (sysptr_bits H) (syspage_size g + pkernel g + offs g),
        set_size (wrap (size_bits H) cand) g) /\
   syspage_size g + sz <= cand /\ syspage_size g + sz < maxsz g) /\
  (wrap (sysptr_bits H) (syspage_size g + pkernel g + offs g) <> 0 ->
   (fst r = 0 <-> maxsz g <= cand)).
Proof.
  intros Hs Hz Hov cand r. subst cand r.
  assert (E : ALIGN_ADDR (wrap 64 (syspage_size g + sz)) sizeof_long_long
              = align8 (syspage_size g + sz)).
  { rewrite (wrap_small 64) by lia. apply ALIGN_ADDR_8_small; lia. }
  pose proof (align8_bounds (syspage_size g + sz)) as Hb.
  split; [| split].
  - intros Hc. apply buffAlloc_fail. rewrite E. assumption.
  - intros Hc. rewrite buffAlloc_pass by (rewrite E; assumption).
    rewrite E. repeat split; lia.
  - intros Hnull.
    destruct (Z.le_gt_cases (maxsz g) (align8 (syspage_size g + sz)))
      as [Hc | Hc].
    + rewrite buffAlloc_fail by (rewrite E; assumption). simpl. tauto.
    + rewrite buffAlloc_pass by (rewrite E; assumption). simpl.
      split; [intros E0; contradiction | lia].
Qed.

End Allocator.

(** ** What each command does to the state *)

Ltac break_match :=
  match goal with
  | |- context [match ?x with _ => _ end] => destruct x eqn:?
  end.

Section Commands.

Variable H : syspage_h.

Lemma effect_refl (g : sysgen_common) : effect H g g.
Proof.
  split; [exists g; repeat split; apply chain_nil | left; reflexivity].
Qed.

Lemma effect_of_chain (g g1 g' : sysgen_common) :
  alloc_chain H g g1 -> syspage_size g' = syspage_size g1 ->
  maxsz g' = maxsz g -> maps g' = maps g -> effect H g g'.
Proof.
  intros Hc Hs Hm Hmaps. split; [exists g1; auto | left; assumption].
Qed.

Lemma buffAlloc_effect (sz : Z) (g : sysgen_common) :
  effect H g (snd (sysgen_buffAlloc H sz g)).
Proof.
  destruct (buffAlloc_frame H sz g) as [v Hv].
  eapply effect_of_chain; [apply alloc_chain_one | reflexivity | |];
    rewrite Hv; reflexivity.
Qed.

Lemma cmdAlias_effect (argv : list cstring) (g : sysgen_common) :
  effect H g (snd (sysgen_cmdAlias H argv g)).
Proof.
  unfold sysgen_cmdAlias.
  repeat break_match; simpl; try apply effect_refl;
    (eapply effect_of_chain; [apply chain_nil | reflexivity ..]).
Qed.

Lemma cmdConsole_effect (argv : list cstring) (g : sysgen_common) :
  effect H g (snd (sysgen_cmdConsole H argv g)).
Proof.
  unfold sysgen_cmdConsole.
  repeat break_match; simpl; try apply effect_refl;
    (eapply effect_of_chain; [apply chain_nil | reflexivity ..]).
Qed.

(** The two results of [sysgen_mapAdd]. *)
Lemma mapAdd_cases (name : cstring) (s e a : Z) (g : sysgen_common) :
  let r := sysgen_mapAdd H name s e a g in
  exists g1, alloc_chain H g g1 /\
    ((fst r = -1 /\ snd r = g1) \/
     (fst r = 0 /\ exists ptr,
        snd r =
        set_maps (maps g ++
                  [ {| map_ptr := ptr; map_id := next_id H (maps g);
                       map_name := name; map_start := s; map_end := e;
                       map_attr := wrap (attr_bits H) a;
                       map_entries := 0 |} ]) g1)).
Proof.
  unfold sysgen_mapAdd.
  destruct (sysgen_buffAlloc H (sizeof_syspage_map_t H) g) as [ptr g1] eqn:E1.
  assert (C1 : alloc_chain H g g1).
  { replace g1 with (snd (sysgen_buffAlloc H (sizeof_syspage_map_t H) g))
      by (rewrite E1; reflexivity). apply alloc_chain_one. }
  destruct (ptr =? 0).
  { exists g1. split; [assumption | left; split; reflexivity]. }
  destruct (sysgen_buffAlloc H (strlen name + 1) g1) as [nptr g2] eqn:E2.
  assert (C2 : alloc_chain H g g2).
  { eapply alloc_chain_trans; [exact C1 |].
    replace g2 with (snd (sysgen_buffAlloc H (strlen name + 1) g1))
      by (rewrite E2; reflexivity). apply alloc_chain_one. }
  exists g2. split; [assumption |].
  destruct (nptr =? 0); [left; split; reflexivity |].
  right. split; [reflexivity |]. exists ptr.
  destruct (alloc_chain_frame H _ _ C2) as [v Hv].
  assert (Hm : maps g2 = maps g) by (rewrite Hv; reflexivity).
  simpl. unfold next_id. rewrite Hm. reflexivity.
Qed.

Lemma mapAdd_effect (name : cstring) (s e a : Z) (g : sysgen_common) :
  existsb (map_clash name s e) (maps g) = false ->
  effect H g (snd (sysgen_mapAdd H name s e a g)).
Proof.
  intros Hfree.
  destruct (mapAdd_cases name s e a g) as [g1 [Hc [[_ Hr] | [_ [ptr Hr]]]]];
    rewrite Hr.
  - destruct (alloc_chain_frame H _ _ Hc) as [v Hv].
    eapply effect_of_chain; [exact Hc | reflexivity | |]; rewrite Hv; reflexivity.
  - destruct (alloc_chain_frame H _ _ Hc) as [v Hv]. split.
    + exists g1. repeat split; [assumption |]. rewrite Hv. reflexivity.
    + right. eexists. split; [reflexivity |]. simpl. split; [assumption | reflexivity].
Qed.

(** [sysgen_cmdMap] either refuses, leaving the state alone, or hands
    clash-free arguments to [sysgen_mapAdd]. *)
Lemma cmdMap_cases (argv : list cstring) (g : sysgen_common) :
  let r := sysgen_cmdMap H argv g in
  (fst r < 0 /\ snd r = g) \/
  exists cmd name a2 a3 a4 attr,
    argv = [cmd; name; a2; a3; a4] /\
    existsb (map_clash name (wrap (addr_bits H) (fst (strtoul a2)))
                            (wrap (addr_bits H) (fst (strtoul a3)))) (maps g)
    = false /\
    r = sysgen_mapAdd H name (wrap (addr_bits H) (fst (strtoul a2)))
                             (wrap (addr_bits H) (fst (strtoul a3))) attr g.
Proof.
  unfold sysgen_cmdMap, sysgen_mapOverlapping.
  repeat break_match; subst; simpl; try (left; split; [lia | reflexivity]).
  right. repeat eexists.
  - match goal with
    | E1 : strtoul _ = _, E2 : strtoul _ = _ |- _ => rewrite E1, E2
    end. simpl.
    match goal with
    | E : ((if ?b then _ else _) <? 0) = false |- _ =>
        destruct b; [discriminate E | reflexivity]
    end.
  - match goal with
    | E1 : strtoul _ = _, E2 : strtoul _ = _ |- _ => rewrite E1, E2
    end. reflexivity.
Qed.

Lemma cmdMap_effect (argv : list cstring) (g : sysgen_common) :
  effect H g (snd (sysgen_cmdMap H argv g)).
Proof.
  destruct (cmdMap_cases argv g) as [[_ Hr] | (c & n & a2 & a3 & a4 & at_ & _ & Hf & Hr)].
  - rewrite Hr. apply effect_refl.
  - rewrite Hr. apply mapAdd_effect. assumption.
Qed.

Lemma appAdd_effect (name imaps dmaps appArgv : cstring) (flags : Z)
  (g : sysgen_common) :
  effect H g (snd (sysgen_appAdd H name imaps dmaps appArgv flags g)).
Proof.
  unfold sysgen_appAdd.
  destruct (sysgen_aliasFind name g); [| apply effect_refl].
  destruct (sysgen_mapsParse imaps ";") as [ibuf imapSz].
  destruct (sysgen_mapsParse dmaps ";") as [dbuf dmapSz].
  set (argvSz := _ + strlen appArgv + 1).
  destruct (sysgen_buffAlloc H (sizeof_syspage_prog_t H) g) as [ptr g1] eqn:E1.
  assert (C1 : alloc_chain H g g1).
  { replace g1 with (snd (sysgen_buffAlloc H (sizeof_syspage_prog_t H) g))
      by (rewrite E1; reflexivity). apply alloc_chain_one. }
  assert (F : forall g', alloc_chain H g g' -> effect H g g').
  { intros g' Hc. destruct (alloc_chain_frame H _ _ Hc) as [v Hv].
    eapply effect_of_chain; [exact Hc | reflexivity | |]; rewrite Hv; reflexivity. }
  destruct (ptr =? 0); [apply F; assumption |].
  destruct (sysgen_buffAlloc H dmapSz g1) as [pd g2] eqn:E2.
  destruct (sysgen_buffAlloc H imapSz g2) as [pi g3] eqn:E3.
  destruct (sysgen_buffAlloc H argvSz g3) as [pa g4] eqn:E4.
  assert (C4 : alloc_chain H g g4).
  { eapply alloc_chain_trans; [exact C1 |].
    eapply chain_step. rewrite E2. simpl.
    eapply chain_step. rewrite E3. simpl.
    eapply chain_step. rewrite E4. simpl. apply chain_nil. }
  destruct (_ || _); [apply F; assumption |].
  destruct (sysgen_mapsAdd2Prog _ _ _); [| apply F; assumption].
  destruct (sysgen_mapsAdd2Prog _ _ _); [| apply F; assumption].
  destruct (alloc_chain_frame H _ _ C4) as [v Hv].
  eapply effect_of_chain; [exact C4 | reflexivity | |]; rewrite Hv; reflexivity.
Qed.

Lemma cmdApp_effect (argv : list cstring) (g : sysgen_common) :
  effect H g (snd (sysgen_cmdApp H argv g)).
Proof.
  unfold sysgen_cmdApp.
  repeat break_match; simpl; try apply effect_refl; apply appAdd_effect.
Qed.

Lemma cmd_effect (cmd : cmd_t) (argv : list cstring) (g : sysgen_common) :
  In cmd (cmds H) -> effect H g (snd (snd cmd argv g)).
Proof.
  unfold cmds. simpl.
  intros [<- | [<- | [<- | [<- | []]]]]; simpl.
  - apply cmdAlias_effect.
  - apply cmdMap_effect.
  - apply cmdApp_effect.
  - apply cmdConsole_effect.
Qed.

End Commands.

(** ** Invariants of the reachable states *)

Lemma strcmp0_true (a b : cstring) : strcmp0 a b = true <-> a = b.
Proof.
  unfold strcmp0. destruct (list_eq_dec ascii_dec a b); split;
    intros; congruence.
Qed.

Lemma strcmp0_false (a b : cstring) : strcmp0 a b = false <-> a <> b.
Proof.
  unfold strcmp0. destruct (list_eq_dec ascii_dec a b); split;
    intros; congruence.
Qed.

Lemma strcmp0_refl (a : cstring) : strcmp0 a a = true.
Proof. apply strcmp0_true. reflexivity. Qed.

Lemma existsb_false_Forall {A : Type} (f : A -> bool) (l : list A) :
  existsb f l = false -> Forall (fun x => f x = false) l.
Proof.
  induction l as [| a l IH]; simpl; intros Hf; constructor.
  - destruct (f a); [discriminate | reflexivity].
  - apply IH. destruct (f a); [discriminate | assumption].
Qed.

Lemma FOP_snoc {A : Type} (R : A -> A -> Prop) (l : list A) (m : A) :
  ForallOrdPairs R l -> Forall (fun x => R x m) l ->
  ForallOrdPairs R (l ++ [m]).
Proof.
  induction 1 as [| a l Ha Hl IH]; intros Hm; simpl.
  - constructor; constructor.
  - inversion Hm; subst. constructor.
    + apply Forall_app. split; [assumption | constructor; [assumption | constructor]].
    + apply IH. assumption.
Qed.

Lemma clash_of_intersects (name : cstring) (s e : Z) (m : syspage_map_t) :
  intersects s e (map_start m) (map_end m) \/ name = map_name m ->
  map_clash name s e m = true.
Proof.
  unfold map_clash. intros [[x [Hx1 Hx2]] | ->].
  - apply orb_true_iff. left. apply andb_true_iff. split.
    + apply Z.ltb_lt. lia.
    + apply Z.gtb_lt. lia.
  - rewrite strcmp0_refl. apply orb_true_r.
Qed.

Lemma apart_of_no_clash (x m : syspage_map_t) :
  map_clash (map_name m) (map_start m) (map_end m) x = false ->
  maps_apart x m.
Proof.
  unfold map_clash, maps_apart. intros Hc.
  apply orb_false_iff in Hc. destruct Hc as [Hi Hn].
  apply strcmp0_false in Hn. split; [| congruence].
  intros [w [Hw1 Hw2]].
  apply andb_false_iff in Hi. destruct Hi as [Hi | Hi].
  - apply Z.ltb_ge in Hi. lia.
  - rewrite Z.gtb_ltb in Hi. apply Z.ltb_ge in Hi. lia.
Qed.

Section Invariants.

Variable H : syspage_h.

Lemma script_loop_preserves (P : sysgen_common -> Prop) :
  (forall cmd argv g, In cmd (cmds H) -> P g -> P (snd (snd cmd argv g))) ->
  forall lines g, P g -> P (snd (script_loop H lines g)).
Proof.
  intros Hcmd. induction lines as [| line rest IH]; intros g Hg; simpl;
    [assumption |].
  destruct (until_nul line); [assumption |].
  destruct (sysgen_parseArgLine _ _ _) as [argc argv].
  destruct (argc =? 0); [apply IH; assumption |].
  destruct (argc <? 0); [assumption |].
  destruct (find_cmd H argv) as [cmd |] eqn:Ef; [| apply IH; assumption].
  apply find_some in Ef. destruct Ef as [Hin _].
  specialize (Hcmd cmd argv g Hin Hg).
  destruct (snd cmd argv g) as [ret g']. simpl in Hcmd.
  destruct (ret <? 0); [assumption | apply IH; assumption].
Qed.

Lemma parseScript_preserves (P : sysgen_common -> Prop) :
  (forall cmd argv g, In cmd (cmds H) -> P g -> P (snd (snd cmd argv g))) ->
  forall file g, P g -> P (snd (sysgen_parseScript H file g)).
Proof.
  intros Hcmd [content |] g Hg; simpl; [| assumption].
  apply script_loop_preserves; assumption.
Qed.

Lemma reachable_preserves (P : sysgen_common -> Prop) (pk off mx : Z) :
  P (sysgen_init H pk off mx) ->
  (forall g g', effect H g g' -> P g -> P g') ->
  forall g, reachable H pk off mx g -> P g.
Proof.
  intros Hinit Hstep g Hr.
  induction Hr as [| g sz _ IH | g cmd argv _ IH Hin | g file _ IH].
  - assumption.
  - eapply Hstep; [apply buffAlloc_effect | assumption].
  - eapply Hstep; [apply cmd_effect; assumption | assumption].
  - apply parseScript_preserves; [| assumption].
    intros c a g0 Hin Hg0. eapply Hstep; [apply cmd_effect; assumption | assumption].
Qed.


Lemma next_id_snoc (l : list syspage_map_t) (a : syspage_map_t) :
  next_id H (l ++ [a]) = wrap (id_bits H) (map_id a + 1).
Proof.
  unfold next_id. destruct (l ++ [a]) eqn:E.
  - destruct l; discriminate.
  - rewrite <- E, last_last. reflexivity.
Qed.

Lemma ids_count_up_snoc (l : list syspage_map_t) (m : syspage_map_t) :
  ids_count_up (id_bits H) l -> map_id m = next_id H l ->
  ids_count_up (id_bits H) (l ++ [m]).
Proof.
  intros Hl Hm k x Hk.
  destruct (Nat.lt_ge_cases k (List.length l)) as [Hlt | Hge].
  - rewrite nth_error_app1 in Hk by assumption. apply Hl. assumption.
  - rewrite nth_error_app2 in Hk by assumption.
    destruct (k - List.length l)%nat as [| j] eqn:Ej.
    2:{ simpl in Hk. destruct j; discriminate. }
    simpl in Hk. injection Hk as <-.
    assert (k = List.length l) by lia. subst k. rewrite Hm.
    destruct l as [| a0 l0 _] using rev_ind.
    + reflexivity.
    + rewrite next_id_snoc.
      rewrite (Hl (List.length l0) a0).
      * rewrite wrap_wrap_succ. f_equal.
        rewrite length_app. simpl. lia.
      * rewrite nth_error_app2 by lia. rewrite Nat.sub_diag. reflexivity.
Qed.

Lemma effect_maps_inv (g g' : sysgen_common) :
  effect H g g' -> maps_inv (id_bits H) (maps g) ->
  maps_inv (id_bits H) (maps g').
Proof.
  intros [_ [-> | [m [-> [Hfree Hid]]]]] [Hp Hi]; [split; assumption |].
  split.
  - apply FOP_snoc; [assumption |].
    apply existsb_false_Forall in Hfree.
    eapply Forall_impl; [| exact Hfree].
    intros x Hx. apply apart_of_no_clash. assumption.
  - apply ids_count_up_snoc; assumption.
Qed.

Lemma reachable_maps_inv (pk off mx : Z) (g : sysgen_common) :
  reachable H pk off mx g -> maps_inv (id_bits H) (maps g).
Proof.
  apply (reachable_preserves (fun g => maps_inv (id_bits H) (maps g))).
  - split; [constructor |]. intros k m Hk. destruct k; discriminate.
  - intros g0 g1. apply effect_maps_inv.
Qed.




(** X23: an address the allocator returns lies a multiple of 8 above the
    address of the start of the buffer. *)
Lemma buffAlloc_aligned (sz : Z) (g : sysgen_common) :
  3 <= sysptr_bits H -> syspage_size g mod 8 = 0 ->
  ALIGN_ADDR (wrap 64 (syspage_size g + sz)) sizeof_long_long < maxsz g ->
  (fst (sysgen_buffAlloc H sz g) - (pkernel g + offs g)) mod 8 = 0.
Proof.
  intros Hb Hm Hlt. rewrite buffAlloc_pass by assumption. simpl.
  rewrite Zminus_mod, wrap_mod8, <- Zminus_mod by assumption.
  replace (syspage_size g + pkernel g + offs g - (pkernel g + offs g))
    with (syspage_size g) by lia.
  assumption.
Qed.

End Invariants.

(** ** The alias table *)

Section Aliases.

Variable H : syspage_h.

(** A successful [alias] command puts one record, named by the first 31
    characters of its argument, at the head of the table. *)
Lemma cmdAlias_ok (argv : list cstring) (g g' : sysgen_common) :
  sysgen_cmdAlias H argv g = (0, g') ->
  exists cmd name a2 a3,
    argv = [cmd; name; a2; a3] /\
    snd (strtoul a2) = [] /\ snd (strtoul a3) = [] /\
    aliases g' =
    {| alias_name := strncpy name 31;
       alias_addr :=
         wrap (addr_bits H) (wrap (addr_bits H) (fst (strtoul a2)) + pkernel g);
       alias_size := fst (strtoul a3) |} :: aliases g.
Proof.
  unfold sysgen_cmdAlias.
  repeat break_match; subst; intros E; try discriminate E;
    injection E as <-; simpl;
    repeat eexists;
    repeat match goal with
           | E : strtoul _ = _ |- _ => rewrite E; clear E
           end; reflexivity.
Qed.

Lemma cmdAlias_aliases (argv : list cstring) (g : sysgen_common) :
  aliases (snd (sysgen_cmdAlias H argv g)) = aliases g \/
  exists a, alias_name a = strncpy (nth 1%nat argv []) 31 /\
            aliases (snd (sysgen_cmdAlias H argv g)) = a :: aliases g.
Proof.
  destruct (sysgen_cmdAlias H argv g) as [ret g'] eqn:E. simpl.
  destruct (Z.eq_dec ret 0) as [-> | Hne].
  - right. apply cmdAlias_ok in E.
    destruct E as (cmd & name & a2 & a3 & -> & _ & _ & ->).
    eexists. split; [| reflexivity]. reflexivity.
  - left. revert E. unfold sysgen_cmdAlias.
    repeat break_match; intros E; injection E as <- <-; try reflexivity;
      contradiction.
Qed.

Lemma aliasFind_head (a : phfs_alias_t) (name : cstring) (g g' : sysgen_common) :
  aliases g' = a :: aliases g ->
  sysgen_aliasFind name g' =
  if strcmp0 (alias_name a) name then Some a else sysgen_aliasFind name g.
Proof.
  intros E. unfold sysgen_aliasFind. rewrite E. reflexivity.
Qed.

Lemma define_seq_other (name : cstring) (defs : list (list cstring)) :
  (forall d, In d defs -> strncpy (nth 1%nat d []) 31 <> name) ->
  forall g, sysgen_aliasFind name (define_seq H defs g) = sysgen_aliasFind name g.
Proof.
  unfold define_seq.
  induction defs as [| d defs IH]; intros Hd g; simpl; [reflexivity |].
  rewrite IH by (intros d' Hin; apply Hd; right; assumption).
  destruct (cmdAlias_aliases d g) as [E | [a [Hn E]]].
  - unfold sysgen_aliasFind. rewrite E. reflexivity.
  - rewrite (aliasFind_head a name g _ E).
    rewrite Hn. destruct (strcmp0 _ _) eqn:Es; [| reflexivity].
    apply strcmp0_true in Es. exfalso. apply (Hd d); [left; reflexivity | assumption].
Qed.

Lemma define_seq_app (l1 l2 : list (list cstring)) (argv : list cstring)
  (g : sysgen_common) :
  define_seq H (l1 ++ argv :: l2) g =
  define_seq H l2 (snd (sysgen_cmdAlias H argv (define_seq H l1 g))).
Proof. unfold define_seq. rewrite fold_left_app. reflexivity. Qed.

(** C7: the alias table is scanned from the most recent definition
    backwards.  In a sequence of [alias] commands, where names may repeat,
    looking a name up gives the record made by the last command that
    defined this name, whatever was defined under it before. *)
Theorem alias_find_latest (g : sysgen_common)
  (defs1 defs2 : list (list cstring)) (argv : list cstring) (name : cstring) :
  fst (sysgen_cmdAlias H argv (define_seq H defs1 g)) = 0 ->
  strncpy (nth 1%nat argv []) 31 = name ->
  (forall d, In d defs2 -> strncpy (nth 1%nat d []) 31 <> name) ->
  exists a,
    aliases (snd (sysgen_cmdAlias H argv (define_seq H defs1 g)))
    = a :: aliases (define_seq H defs1 g) /\
    sysgen_aliasFind name (define_seq H (defs1 ++ argv :: defs2) g) = Some a.
Proof.
  intros Hok Hname Hlater.
  set (g1 := define_seq H defs1 g) in *.
  destruct (sysgen_cmdAlias H argv g1) as [ret g2] eqn:E.
  simpl in Hok. subst ret.
  pose proof (cmdAlias_ok _ _ _ E) as (cmd & nm & a2 & a3 & -> & _ & _ & Hal).
  eexists. split; [exact Hal |].
  rewrite define_seq_app. fold g1. rewrite E. simpl.
  rewrite define_seq_other by assumption.
  rewrite (aliasFind_head _ name g1 g2 Hal). simpl.
  simpl in Hname. rewrite Hname, strcmp0_refl. reflexivity.
Qed.

(** C10, amended: a successful [alias] command stores the first 31
    characters of the name.  A lookup compares its whole, uncut name with
    the stored one: it finds the new record exactly under those 31
    characters, under the full name only if that has no more than 31; two
    commands whose names agree on their first 31 characters leave the same
    table. *)
Theorem alias_name_truncated (g g' : sysgen_common) (cmd name a2 a3 : cstring) :
  sysgen_cmdAlias H [cmd; name; a2; a3] g = (0, g') ->
  (exists a,
     aliases g' = a :: aliases g /\ alias_name a = firstn 31 name /\
     forall key,
       sysgen_aliasFind key g' =
       if strcmp0 (firstn 31 name) key then Some a else sysgen_aliasFind key g) /\
  ((31 < List.length name)%nat ->
   sysgen_aliasFind name g' = sysgen_aliasFind name g) /\
  (forall name', firstn 31 name' = firstn 31 name ->
                 sysgen_cmdAlias H [cmd; name'; a2; a3] g = (0, g')).
Proof.
  intros E.
  pose proof (cmdAlias_ok _ _ _ E) as (c & nm & b2 & b3 & Hargv & _ & _ & Hal).
  injection Hargv as <- <- <- <-.
  assert (Hkey : forall key,
             sysgen_aliasFind key g' =
             if strcmp0 (firstn 31 name) key
             then Some {| alias_name := strncpy name 31;
                          alias_addr :=
                            wrap (addr_bits H)
                              (wrap (addr_bits H) (fst (strtoul a2)) + pkernel g);
                          alias_size := fst (strtoul a3) |}
             else sysgen_aliasFind key g).
  { intros key. rewrite (aliasFind_head _ key g g' Hal). reflexivity. }
  split; [| split].
  - eexists. split; [exact Hal |]. split; [reflexivity | exact Hkey].
  - intros Hlen. rewrite Hkey.
    destruct (strcmp0 _ _) eqn:Es; [| reflexivity].
    apply strcmp0_true in Es. exfalso.
    pose proof (firstn_le_length 31 name) as Hle. rewrite Es in Hle. lia.
  - intros name' Hn. rewrite <- E. unfold sysgen_cmdAlias, strncpy.
    rewrite Hn. reflexivity.
Qed.

End Aliases.

(** ** The tokeniser *)

Lemma copy_graph_split (lines : cstring) (room : nat) :
  lines = fst (copy_graph lines room) ++ snd (copy_graph lines room).
Proof.
  revert lines. induction room as [| k IH]; intros [| c r]; simpl;
    try reflexivity.
  destruct (isgraph c); [| reflexivity].
  specialize (IH r). destruct (copy_graph r k) as [tok rest]. simpl in *.
  rewrite <- IH. reflexivity.
Qed.

Lemma copy_graph_rest_length (lines : cstring) (room : nat) :
  (List.length (snd (copy_graph lines room)) <= List.length lines)%nat.
Proof.
  rewrite (copy_graph_split lines room) at 2. rewrite length_app. lia.
Qed.

(** The loop of [sysgen_parseArgLine] ends: every round takes a character
    off the line or adds an argument, and the arguments are bounded. *)
Lemma parseArgLine_loop_total (bufsz argvsz : Z) (fuel : nat) :
  forall (lines : cstring) (used : Z) (argv : list cstring),
    (List.length lines + (Z.to_nat argvsz - List.length argv) < fuel)%nat ->
    exists r, parseArgLine_loop fuel lines used bufsz argvsz argv = Some r.
Proof.
  induction fuel as [| f IH]; intros lines used argv Hf; [lia |].
  simpl. destruct lines as [| c r]; [eexists; reflexivity |].
  destruct (isspace c).
  - destruct (isblank c); [| eexists; reflexivity].
    apply IH. simpl in Hf. lia.
  - destruct (Z.geb_spec (Z.of_nat (List.length argv) + 1) argvsz) as [Hge | Hlt];
      [eexists; reflexivity |].
    pose proof (copy_graph_rest_length (c :: r) (Z.to_nat (bufsz - used))) as Hl.
    destruct (copy_graph (c :: r) (Z.to_nat (bufsz - used))) as [tok rest].
    simpl in Hl.
    destruct (_ >=? bufsz); [eexists; reflexivity |].
    apply IH. rewrite length_app. simpl in *.
    lia.
Qed.

Theorem parseArgLine_total (lines : cstring) (bufsz argvsz : Z) :
  exists r,
    parseArgLine_loop (parseArgLine_fuel lines argvsz) lines 0 bufsz argvsz []
    = Some r /\ sysgen_parseArgLine lines bufsz argvsz = r.
Proof.
  destruct (parseArgLine_loop_total bufsz argvsz (parseArgLine_fuel lines argvsz)
              lines 0 []) as [r Hr].
  - unfold parseArgLine_fuel. simpl. lia.
  - exists r. split; [assumption |].
    unfold sysgen_parseArgLine. rewrite Hr. reflexivity.
Qed.

Lemma isblank_isspace (c : ascii) : isblank c = true -> isspace c = true.
Proof.
  unfold isblank, isspace. intros Hb.
  apply orb_true_iff in Hb. destruct Hb as [Hb | Hb];
    apply Z.eqb_eq in Hb; rewrite Hb; reflexivity.
Qed.

Lemma isblank_code (c : ascii) : isblank c = true -> code c = 32 \/ code c = 9.
Proof.
  unfold isblank. intros Hb. apply orb_true_iff in Hb.
  destruct Hb as [Hb | Hb]; apply Z.eqb_eq in Hb; auto.
Qed.

(** A run of blanks, ended by a newline or by the end of the string, holds
    no argument. *)
Lemma parseArgLine_loop_blank (bufsz argvsz : Z) (bl tail : cstring) :
  Forall (fun c => isblank c = true) bl ->
  tail = [] \/ tail = [newline] ->
  forall (fuel : nat) (used : Z),
    (List.length bl < fuel)%nat ->
    parseArgLine_loop fuel (bl ++ tail) used bufsz argvsz [] = Some (0, []).
Proof.
  intros Hbl Htail. induction Hbl as [| c bl Hc _ IH]; intros fuel used Hf.
  - destruct fuel as [| f]; [simpl in Hf; lia |].
    destruct Htail as [-> | ->]; reflexivity.
  - destruct fuel as [| f]; [simpl in Hf; lia |].
    simpl. rewrite (isblank_isspace c Hc), Hc.
    apply IH. simpl in Hf. lia.
Qed.

Lemma parseArgLine_blank (bl tail : cstring) (bufsz argvsz : Z) :
  Forall (fun c => isblank c = true) bl ->
  tail = [] \/ tail = [newline] ->
  sysgen_parseArgLine (bl ++ tail) bufsz argvsz = (0, []).
Proof.
  intros Hbl Htail. unfold sysgen_parseArgLine.
  rewrite (parseArgLine_loop_blank bufsz argvsz bl tail Hbl Htail);
    [reflexivity |].
  unfold parseArgLine_fuel. rewrite length_app. lia.
Qed.

Lemma until_nul_id (l : cstring) :
  Forall (fun c => code c <> 0) l -> until_nul l = l.
Proof.
  induction 1 as [| c l Hc _ IH]; simpl; [reflexivity |].
  destruct (Z.eqb_spec (code c) 0); [contradiction | rewrite IH; reflexivity].
Qed.

(** ** [getline] *)

Lemma getlines_line (l rest cur : list ascii) :
  Forall (fun c => code c <> 10) l ->
  getlines cur (l ++ newline :: rest) = (cur ++ l ++ [newline]) :: getlines [] rest.
Proof.
  intros Hl. revert cur. induction Hl as [| c l Hc _ IH]; intros cur; simpl.
  - reflexivity.
  - destruct (Z.eqb_spec (code c) 10); [contradiction |].
    rewrite IH, <- app_assoc. reflexivity.
Qed.

Lemma getlines_head (content cur : list ascii) :
  cur <> [] -> exists tl rest, getlines cur content = (cur ++ tl) :: rest.
Proof.
  revert cur. induction content as [| c r IH]; intros cur Hcur; simpl.
  - destruct cur; [contradiction |]. exists [], []. rewrite app_nil_r. reflexivity.
  - destruct (code c =? 10).
    + eexists _, _. reflexivity.
    + destruct (IH (cur ++ [c])) as (tl & rest & E).
      * destruct cur; discriminate.
      * rewrite E, <- app_assoc. eexists _, _. reflexivity.
Qed.

(** ** The script reader *)

Section Script.

Variable H : syspage_h.

(** One round of the loop on a line that does not start with a zero byte. *)
Lemma script_loop_cons (line : list ascii) (rest : list (list ascii))
  (g : sysgen_common) :
  until_nul line <> [] ->
  script_loop H (line :: rest) g =
  let '(argc, argv) :=
    sysgen_parseArgLine (until_nul line) SIZE_CMD_ARG_LINE SIZE_CMD_ARGV in
  if argc =? 0 then script_loop H rest g
  else if argc <? 0 then (argc, g)
  else
    match find_cmd H argv with
    | None => script_loop H rest g
    | Some cmd =>
        let '(ret, g') := snd cmd argv g in
        if ret <? 0 then (ret, g') else script_loop H rest g'
    end.
Proof.
  intros Hne. simpl. destruct (until_nul line); [contradiction | reflexivity].
Qed.

Lemma script_loop_abort (lines post : list (list ascii)) (g : sysgen_common) :
  fst (script_loop H lines g) < 0 ->
  script_loop H (lines ++ post) g = script_loop H lines g.
Proof.
  revert g. induction lines as [| line rest IH]; intros g; simpl.
  - lia.
  - destruct (until_nul line); [simpl; lia |].
    destruct (sysgen_parseArgLine _ _ _) as [argc argv].
    destruct (argc =? 0); [apply IH |].
    destruct (argc <? 0); [reflexivity |].
    destruct (find_cmd H argv) as [cmd |]; [| apply IH].
    destruct (snd cmd argv g) as [ret g'].
    destruct (ret <? 0); [reflexivity | apply IH].
Qed.

Lemma find_cmd_unknown (argv : list cstring) :
  ~ In (nth 0%nat argv []) [cstr "alias"; cstr "map"; cstr "app"; cstr "console"] ->
  find_cmd H argv = None.
Proof.
  intros Hn. unfold find_cmd, cmds. simpl find.
  repeat match goal with
         | |- context [strcmp0 ?a ?b] =>
             destruct (strcmp0 a b) eqn:E;
             [apply strcmp0_true in E; exfalso; apply Hn; rewrite E; simpl; tauto
             | clear E]
         end.
  reflexivity.
Qed.

(** C1, amended: a line that cannot be cut into arguments (too many of
    them, or too long for the buffer) and a line whose first argument
    names one of the four commands and whose command fails both end the
    script there with that negative result, and nothing that follows is
    run, whatever it is.  A line without arguments is skipped, and so is
    a line whose first argument is not the name of a command. *)
Theorem script_aborts_on_failure (line : list ascii)
  (rest : list (list ascii)) (g : sysgen_common) :
  until_nul line <> [] ->
  let parsed :=
    sysgen_parseArgLine (until_nul line) SIZE_CMD_ARG_LINE SIZE_CMD_ARGV in
  let argc := fst parsed in
  let argv := snd parsed in
  (argc < 0 -> script_loop H (line :: rest) g = (argc, g)) /\
  (forall cmd, 0 < argc -> find_cmd H argv = Some cmd ->
               fst (snd cmd argv g) < 0 ->
               script_loop H (line :: rest) g = snd cmd argv g) /\
  (argc = 0 \/
   (0 < argc /\
    ~ In (nth 0%nat argv [])
         [cstr "alias"; cstr "map"; cstr "app"; cstr "console"]) ->
   script_loop H (line :: rest) g = script_loop H rest g) /\
  (forall lines post,
     fst (script_loop H lines g) < 0 ->
     script_loop H (lines ++ post) g = script_loop H lines g).
Proof.
  intros Hne parsed argc argv.
  rewrite (script_loop_cons line rest g Hne).
  fold parsed. destruct parsed as [c v] eqn:Ep. subst argc argv. simpl.
  repeat split.
  - intros Hc. destruct (Z.eqb_spec c 0); [lia |].
    destruct (Z.ltb_spec c 0); [reflexivity | lia].
  - intros cmd Hc Hf Hret. destruct (Z.eqb_spec c 0); [lia |].
    destruct (Z.ltb_spec c 0); [lia |]. rewrite Hf.
    destruct (snd cmd v g) as [ret g']. simpl in Hret.
    destruct (Z.ltb_spec ret 0); [reflexivity | lia].
  - intros [-> | [Hc Hn]]; [reflexivity |].
    destruct (Z.eqb_spec c 0); [lia |].
    destruct (Z.ltb_spec c 0); [lia |].
    rewrite (find_cmd_unknown v Hn). reflexivity.
  - intros lines post. apply script_loop_abort.
Qed.

(** C8, amended: a blank line does not end the script.  A line of blanks
    is skipped and the lines after it are processed as if it were not
    there; what ends a script, with success, is the end of the file or a
    line whose first byte is zero. *)
Theorem blank_line_is_skipped (content : list ascii) (g : sysgen_common) :
  (forall bl, Forall (fun c => isblank c = true) bl ->
              sysgen_parseScript H (Some (bl ++ newline :: content)) g =
              sysgen_parseScript H (Some content) g) /\
  (forall c, code c = 0 ->
             sysgen_parseScript H (Some (c :: content)) g = (0, g)) /\
  sysgen_parseScript H (Some []) g = (0, g).
Proof.
  repeat split.
  - intros bl Hbl. unfold sysgen_parseScript.
    rewrite getlines_line.
    2:{ eapply Forall_impl; [| exact Hbl]. intros c Hc.
        destruct (isblank_code c Hc) as [E | E]; rewrite E; lia. }
    simpl app.
    assert (Hid : until_nul (bl ++ [newline]) = bl ++ [newline]).
    { apply until_nul_id. apply Forall_app. split.
      - eapply Forall_impl; [| exact Hbl]. intros c Hc.
        destruct (isblank_code c Hc) as [E | E]; rewrite E; lia.
      - constructor; [| constructor]. discriminate. }
    rewrite script_loop_cons by (rewrite Hid; destruct bl; discriminate).
    rewrite Hid, parseArgLine_blank by (auto; right; reflexivity).
    reflexivity.
  - intros c Hc. unfold sysgen_parseScript. simpl getlines.
    rewrite Hc. simpl (0 =? 10). cbv iota.
    destruct (getlines_head content [c]) as (tl & rs & E); [discriminate |].
    rewrite E. simpl. rewrite Hc. reflexivity.
Qed.

End Script.

(** ** What [strtoul] consumes *)

Lemma scan_digits_split (base : Z) (s : cstring) :
  forall acc r rest,
    scan_digits base acc s = (r, rest) ->
    exists d, s = d ++ rest /\ scan_digits base acc d = (r, []) /\
              (acc = None -> r <> None -> d <> []).
Proof.
  induction s as [| c s IH]; intros acc r rest E; simpl in E.
  - injection E as <- <-. exists []. repeat split. intros -> Hr. contradiction.
  - destruct (digit_val c) as [dv |] eqn:Ed.
    + destruct (dv <? base) eqn:Eb.
      * apply IH in E. destruct E as (d & -> & Hd & _).
        exists (c :: d). repeat split.
        -- simpl. rewrite Ed, Eb. assumption.
        -- intros _ _. discriminate.
      * injection E as <- <-. exists []. repeat split.
        intros -> Hr. contradiction.
    + injection E as <- <-. exists []. repeat split.
      intros -> Hr. contradiction.
Qed.

Lemma strtoul_number_x (s2 rest : cstring) :
  strtoul_number s2 = inr (Some rest) ->
  exists x r, rest = x :: r /\ is_x x = true.
Proof.
  unfold strtoul_number. destruct s2 as [| z [| x r]].
  - destruct (scan_digits 10 None []) as [[v |] rs]; discriminate.
  - destruct (scan_digits 10 None [z]) as [[v |] rs]; discriminate.
  - destruct ((code z =? 48) && is_x x) eqn:Ex.
    + destruct (scan_digits 16 None r) as [[v |] rs]; [discriminate |].
      intros E. injection E as <-. exists x, r.
      apply andb_true_iff in Ex. tauto.
    + destruct (scan_digits _ None (z :: x :: r)) as [[v |] rs]; discriminate.
Qed.

(** The digits [strtoul_number] reads make a number on their own. *)
Lemma strtoul_number_split (s2 rest : cstring) (v : Z) :
  strtoul_number s2 = inl (v, rest) ->
  exists d, d <> [] /\ s2 = d ++ rest /\
            exists v', strtoul_number d = inl (v', []).
Proof.
  unfold strtoul_number at 1. destruct s2 as [| z [| x r]].
  - simpl. discriminate.
  - destruct (scan_digits 10 None [z]) as [[w |] rs] eqn:E; [| discriminate].
    intros E'. injection E' as <- <-.
    destruct (scan_digits_split _ _ _ _ _ E) as (d & Hs & Hd & Hne).
    specialize (Hne eq_refl ltac:(discriminate)).
    destruct d as [| c [| c' d']]; [contradiction | | discriminate].
    injection Hs as <- <-. exists [z].
    split; [discriminate |]. split; [reflexivity |].
    exists w. unfold strtoul_number. rewrite E. reflexivity.
  - destruct ((code z =? 48) && is_x x) eqn:Ex.
    + destruct (scan_digits 16 None r) as [[w |] rs] eqn:E; [| discriminate].
      intros E'. injection E' as <- <-.
      destruct (scan_digits_split _ _ _ _ _ E) as (d & -> & Hd & _).
      exists (z :: x :: d).
      split; [discriminate |]. split; [reflexivity |].
      exists w. unfold strtoul_number. rewrite Ex, Hd. reflexivity.
    + set (b := if code z =? 48 then 8 else 10).
      assert (Hb : b <= 10) by (subst b; destruct (code z =? 48); lia).
      destruct (scan_digits b None (z :: x :: r)) as [[w |] rs] eqn:E;
        [| discriminate].
      intros E'. injection E' as <- <-.
      destruct (scan_digits_split _ _ _ _ _ E) as (d & Hs & Hd & Hne).
      specialize (Hne eq_refl ltac:(discriminate)).
      destruct d as [| c [| c' d']]; [contradiction | |].
      * injection Hs as <- Hs. exists [z].
        split; [discriminate |]. split; [rewrite <- Hs; reflexivity |].
        unfold strtoul_number. simpl in Hd |- *.
        destruct (digit_val z) as [dz |]; [| discriminate].
        destruct (Z.ltb_spec dz b); [| discriminate].
        destruct (Z.ltb_spec dz 10); [| lia].
        eexists. reflexivity.
      * injection Hs as <- <- Hs. exists (z :: x :: d').
        split; [discriminate |]. split; [rewrite Hs; reflexivity |].
        exists w. unfold strtoul_number. rewrite Ex. fold b. rewrite Hd.
        reflexivity.
Qed.

Lemma strtoul_sign_prefix (s1 d rest : cstring) (neg : bool) :
  strtoul_sign s1 = (neg, d ++ rest) -> d <> [] ->
  exists sg, s1 = sg ++ d ++ rest /\ strtoul_sign (sg ++ d) = (neg, d).
Proof.
  unfold strtoul_sign at 1. intros E Hd. destruct s1 as [| c r].
  - injection E as <- E. destruct d; [contradiction | discriminate].
  - destruct (code c =? 45) eqn:E45.
    + injection E as <- <-. exists [c]. split; [reflexivity |].
      simpl. rewrite E45. reflexivity.
    + destruct (code c =? 43) eqn:E43.
      * injection E as <- <-. exists [c]. split; [reflexivity |].
        simpl. rewrite E45, E43. reflexivity.
      * injection E as <- E. exists []. split; [assumption |].
        destruct d as [| c0 d0]; [contradiction |].
        injection E as <- _. simpl. rewrite E45, E43. reflexivity.
Qed.

Lemma skip_space_prefix (s a1 t : cstring) :
  skip_space s = a1 ++ t -> a1 <> [] ->
  exists sp, s = sp ++ a1 ++ t /\ skip_space (sp ++ a1) = a1.
Proof.
  intros E Ha. induction s as [| c r IH]; simpl in E.
  - destruct a1; [contradiction | discriminate].
  - destruct (isspace c) eqn:Ec.
    + destruct (IH E) as (sp & -> & Hsp). exists (c :: sp).
      split; [reflexivity |]. simpl. rewrite Ec. assumption.
    + exists []. split; [assumption |].
      destruct a1 as [| c0 a0]; [contradiction |].
      injection E as <- _. simpl. rewrite Ec. reflexivity.
Qed.

(** Where [strtoul] stops before a character other than [x]: what it has
    passed is nothing, or an integer read to its end. *)
Lemma strtoul_consumed (s : cstring) (c : ascii) (b : cstring) :
  snd (strtoul s) = c :: b -> is_x c = false ->
  exists a, s = a ++ c :: b /\ (a = [] \/ integer_token a).
Proof.
  unfold strtoul at 1. intros E Hc.
  destruct (strtoul_sign (skip_space s)) as [neg s2] eqn:Es.
  destruct (strtoul_number s2) as [[v rest] | [rest |]] eqn:En; simpl in E.
  - subst rest.
    destruct (strtoul_number_split _ _ _ En) as (d & Hd & -> & v' & Hn).
    destruct (strtoul_sign_prefix _ _ _ _ Es Hd) as (sg & Hs1 & Hsg).
    assert (Hne : sg ++ d <> []) by (destruct sg; [assumption | discriminate]).
    rewrite app_assoc in Hs1.
    destruct (skip_space_prefix _ _ _ Hs1 Hne) as (sp & -> & Hsp).
    exists (sp ++ sg ++ d). split; [rewrite <- !app_assoc; reflexivity |].
    right. split.
    + destruct sp; [assumption | discriminate].
    + unfold strtoul. rewrite Hsp, Hsg, Hn. reflexivity.
  - destruct (strtoul_number_x _ _ En) as (x & r & -> & Hx).
    injection E as -> _. congruence.
  - exists []. split; [assumption | left; reflexivity].
Qed.

Section Console.

Variable H : syspage_h.

(** X24: what [sysgen_cmdConsole] accepts: it succeeds exactly when [strtoul]
    stops at a separator in the token and reads what follows the separator
    to the end of the token.  The token is then [a.b] where each of [a]
    and [b] is an integer or is empty, an empty part being read as 0; the
    value of [b], cut to [unsigned int] and to the console field, is
    written to the console field and nothing else changes.  On any other
    token the result is [-EINVAL] and the state is as it was. *)
Theorem console_accepts (g : sysgen_common) (cmd tok : cstring) :
  let r := sysgen_cmdConsole H [cmd; tok] g in
  (fst r = 0 \/ (fst r = - EINVAL /\ snd r = g)) /\
  (fst r = 0 <->
   exists b, snd (strtoul tok) = "."%char :: b /\ snd (strtoul b) = []) /\
  (fst r = 0 ->
   exists a b,
     tok = a ++ "."%char :: b /\
     (a = [] \/ integer_token a) /\ (b = [] \/ integer_token b) /\
     snd r = set_console (wrap (console_bits H) (wrap 32 (fst (strtoul b)))) g).
Proof.
  unfold sysgen_cmdConsole.
  destruct (snd (strtoul tok)) as [| c after] eqn:E1; simpl.
  { repeat split; try (intros; discriminate); auto.
    intros (b & Hb & _). discriminate. }
  destruct (Ascii.eqb_spec c "."%char) as [-> | Hc].
  2:{ simpl. repeat split; try (intros; discriminate); auto.
      intros (b & Hb & _). congruence. }
  destruct (strtoul after) as [v e2] eqn:E2.
  destruct e2 as [| c2 e2]; simpl.
  - split; [left; reflexivity |]. split.
    + split; [| reflexivity]. intros _. exists after.
      rewrite E2. split; reflexivity.
    + intros _.
      destruct (strtoul_consumed tok "."%char after E1 eq_refl) as (a & Ha & Hi).
      exists a, after. repeat split; try assumption.
      * destruct after as [| c0 r0]; [left; reflexivity |].
        right. split; [discriminate | rewrite E2; reflexivity].
      * rewrite E2. reflexivity.
  - repeat split; try (intros; discriminate); auto.
    intros (b & Hb & Hb'). injection Hb as <-. rewrite E2 in Hb'. discriminate.
Qed.

End Console.

(** ** Example 1 *)

Lemma align8_add_small (x k : Z) :
  x mod 8 = 0 -> 0 < k <= 8 -> align8 (x + k) = x + 8.
Proof.
  intros Hx Hk. unfold align8.
  pose proof (Z.div_mod x 8 ltac:(lia)) as Hd.
  replace (x + k + 7) with ((x / 8 + 1) * 8 + (k - 1)) by lia.
  rewrite Z.div_add_l by lia.
  rewrite (Z.div_small (k - 1) 8) by lia. lia.
Qed.

Ltac eval_strtoul :=
  repeat match goal with
         | |- context [strtoul ?s] =>
             let v := eval vm_compute in (strtoul s) in
             change (strtoul s) with v
         end.

Section Example.

Variable H : syspage_h.

Lemma buffAlloc_room (sz : Z) (g : sysgen_common) :
  room H g -> 0 <= sz -> align8 (syspage_size g + sz) < maxsz g ->
  sysgen_buffAlloc H sz g =
  (syspage_size g + pkernel g + offs g,
   set_size (align8 (syspage_size g + sz)) g) /\
  syspage_size g + pkernel g + offs g <> 0 /\
  room H (set_size (align8 (syspage_size g + sz)) g).
Proof.
  intros (Hpos & Hsz & H63 & Hbase & Hptr) Hz Hlt.
  pose proof (align8_bounds (syspage_size g + sz)) as Hb.
  assert (E : ALIGN_ADDR (wrap 64 (syspage_size g + sz)) sizeof_long_long
              = align8 (syspage_size g + sz)).
  { rewrite (wrap_small 64) by lia. apply ALIGN_ADDR_8_small; lia. }
  split; [| split].
  - rewrite buffAlloc_pass by (rewrite E; assumption).
    rewrite E. f_equal.
    + apply wrap_small. lia.
    + rewrite wrap_small by lia. reflexivity.
  - lia.
  - unfold room. simpl. repeat split; lia.
Qed.

Lemma example1_alias (g : sysgen_common) :
  exists g1,
    sysgen_cmdAlias H [cstr "alias"; cstr "app1"; cstr "0x1000"; cstr "0x200"] g
    = (0, g1) /\
    aliases g1 =
    {| alias_name := cstr "app1";
       alias_addr := wrap (addr_bits H) (wrap (addr_bits H) 4096 + pkernel g);
       alias_size := 512 |} :: aliases g /\
    syspage_size g1 = syspage_size g /\ maxsz g1 = maxsz g /\
    pkernel g1 = pkernel g /\ offs g1 = offs g /\
    maps g1 = maps g /\ progs g1 = progs g.
Proof.
  eexists. split; [reflexivity |]. simpl.
  destruct (hs_imgsz g <? _); repeat split.
Qed.

Lemma example1_map (g : sysgen_common) :
  room H g -> maps g = [] -> 0 <= sizeof_syspage_map_t H ->
  align8 (align8 (syspage_size g + sizeof_syspage_map_t H) + 6) < maxsz g ->
  exists m,
    sysgen_cmdMap H [cstr "map"; cstr "ocram"; cstr "0x0"; cstr "0x10000";
                     cstr "rwx"] g
    = (0, set_maps [m]
            (set_size (align8 (align8 (syspage_size g + sizeof_syspage_map_t H)
                               + 6)) g)) /\
    map_id m = 0 /\ map_name m = cstr "ocram".
Proof.
  intros Hroom Hmaps HszM Hfit.
  pose proof (align8_bounds (syspage_size g + sizeof_syspage_map_t H)) as B1.
  pose proof (align8_bounds (align8 (syspage_size g + sizeof_syspage_map_t H) + 6))
    as B2.
  destruct (buffAlloc_room (sizeof_syspage_map_t H) g Hroom HszM ltac:(lia))
    as (E1 & N1 & R1).
  destruct (buffAlloc_room 6 _ R1 ltac:(lia) ltac:(simpl; lia))
    as (E2 & N2 & R2).
  simpl in E2, N2.
  eexists. split.
  - unfold sysgen_cmdMap. eval_strtoul. cbv iota beta.
    unfold sysgen_strAttr2ui. simpl sysgen_strAttr2ui_from.
    unfold sysgen_mapOverlapping. rewrite Hmaps. simpl existsb. simpl (0 <? 0).
    cbv iota. unfold sysgen_mapAdd. rewrite E1.
    destruct (Z.eqb_spec (syspage_size g + pkernel g + offs g) 0); [contradiction |].
    change (strlen (cstr "ocram") + 1) with 6. rewrite E2.
    match goal with
    | |- context [?p =? 0] => destruct (Z.eqb_spec p 0); [contradiction |]
    end.
    simpl maps. rewrite Hmaps. simpl app.
    reflexivity.
  - split; reflexivity.
Qed.

Lemma example1_app (g : sysgen_common) (a : phfs_alias_t) (m : syspage_map_t) :
  room H g -> sysgen_aliasFind (cstr "app1") g = Some a ->
  maps g = [m] -> map_name m = cstr "ocram" -> map_id m = 0 ->
  progs g = [] -> 0 <= sizeof_syspage_prog_t H ->
  align8 (syspage_size g + sizeof_syspage_prog_t H) + 24 < maxsz g ->
  sysgen_cmdApp H [cstr "app"; cstr "flash0"; cstr "app1"; cstr "ocram";
                   cstr "ocram"] g
  = (0, set_progs
          [ {| prog_ptr := syspage_size g + pkernel g + offs g;
               prog_start := alias_addr a;
               prog_end := wrap (addr_bits H) (alias_addr a + alias_size a);
               prog_imaps := [0]; prog_dmaps := [0];
               prog_argv := cstr "app1" ++ [nul] |} ]
          (set_size (align8 (syspage_size g + sizeof_syspage_prog_t H) + 24) g)).
Proof.
  intros Hroom Hal Hmaps Hname Hid Hprogs HszP Hfit.
  set (s3 := align8 (syspage_size g + sizeof_syspage_prog_t H)) in *.
  assert (M3 : s3 mod 8 = 0) by apply align8_mod.
  assert (A4 : align8 (s3 + 1) = s3 + 8) by (apply align8_add_small; lia).
  assert (M4 : (s3 + 8) mod 8 = 0).
  { rewrite <- A4. apply align8_mod. }
  assert (A5 : align8 (s3 + 8 + 1) = s3 + 16).
  { rewrite align8_add_small by (assumption || lia). lia. }
  assert (M5 : (s3 + 16) mod 8 = 0).
  { rewrite <- A5. apply align8_mod. }
  assert (A6 : align8 (s3 + 16 + 5) = s3 + 24).
  { rewrite align8_add_small by (assumption || lia). lia. }
  destruct (buffAlloc_room (sizeof_syspage_prog_t H) g Hroom HszP ltac:(fold s3; lia))
    as (E1 & N1 & R1). fold s3 in E1, R1.
  destruct (buffAlloc_room 1 _ R1 ltac:(lia) ltac:(simpl; lia)) as (E2 & N2 & R2).
  simpl in E2, N2, R2. rewrite A4 in E2, R2.
  destruct (buffAlloc_room 1 _ R2 ltac:(lia) ltac:(simpl; lia)) as (E3 & N3 & R3).
  simpl in E3, N3, R3. rewrite A5 in E3, R3.
  destruct (buffAlloc_room 5 _ R3 ltac:(lia) ltac:(simpl; lia)) as (E4 & N4 & R4).
  simpl in E4, N4, R4. rewrite A6 in E4, R4.
  transitivity (sysgen_appAdd H (cstr "app1") (cstr "ocram") (cstr "ocram")
                  (cstr "app1") 0 g); [reflexivity |].
  unfold sysgen_appAdd. rewrite Hal.
  change (sysgen_mapsParse (cstr "ocram") ";") with (cstr "ocram", 1).
  cbv iota beta.
  change (strlen (cstr "app1")) with 4. simpl (Z.land 0 flagSyspageExec =? 0).
  cbv iota. simpl (0 + 4 + 1).
  rewrite E1.
  destruct (Z.eqb_spec (syspage_size g + pkernel g + offs g) 0); [contradiction |].
  rewrite E2, E3, E4.
  repeat match goal with
         | |- context [?p =? 0] =>
             is_var p || (destruct (Z.eqb_spec p 0); [contradiction |])
         end.
  simpl orb. cbv iota.
  assert (Hres : forall g', maps g' = [m] ->
                   sysgen_mapsAdd2Prog 1 (cstr "ocram") g' = Some [0]).
  { intros g' Hg'. simpl. unfold sysgen_mapNameResolve. rewrite Hg'. simpl.
    rewrite Hname. simpl. rewrite Hid. reflexivity. }
  simpl (Z.to_nat 1).
  rewrite !Hres by (simpl; assumption).
  simpl progs. rewrite Hprogs. reflexivity.
Qed.

(** A line holding a command that succeeds hands its state to the lines
    after it. *)
Lemma script_step (line : list ascii) (rest : list (list ascii))
  (g g' : sysgen_common) (argc : Z) (argv : list cstring) (cmd : cmd_t) :
  until_nul line <> [] ->
  sysgen_parseArgLine (until_nul line) SIZE_CMD_ARG_LINE SIZE_CMD_ARGV
  = (argc, argv) ->
  0 < argc -> find_cmd H argv = Some cmd -> snd cmd argv g = (0, g') ->
  script_loop H (line :: rest) g = script_loop H rest g'.
Proof.
  intros Hne Hp Hc Hf Hr. rewrite script_loop_cons by assumption.
  rewrite Hp. destruct (Z.eqb_spec argc 0); [lia |].
  destruct (Z.ltb_spec argc 0); [lia |].
  rewrite Hf, Hr. reflexivity.
Qed.

Ltac run_line cmd g' E :=
  match goal with
  | |- context [script_loop _ (?line :: ?rest) ?g] =>
      let p := eval vm_compute in
        (sysgen_parseArgLine (until_nul line) SIZE_CMD_ARG_LINE SIZE_CMD_ARGV) in
      match p with
      | (?argc, ?argv) =>
          rewrite (script_step line rest g g' argc argv cmd);
          [| vm_compute; discriminate | vm_compute; reflexivity | lia
           | reflexivity | exact E]
      end
  end.

(** C2, amended: with the device argument that [sysgen_cmdApp] requires
    before the program name, and in a configuration with room for it, the
    script of Example 1 succeeds and leaves one map, of id 0, and one
    program whose instruction and data map ids are [0], whose argument
    bytes are [app1] and a terminator with no marker before them, and
    whose start and end are those of the alias, which [sysgen_cmdAlias]
    stored moved up by the load address: load address + 0x1000 and load
    address + 0x1200. *)
Theorem example1_with_device (pk off mx : Z) :
  example1_fits H pk off mx ->
  let r := sysgen_parseScript H (Some example1_dev) (sysgen_init H pk off mx) in
  fst r = 0 /\
  (exists m, maps (snd r) = [m] /\ map_id m = 0) /\
  (exists p, progs (snd r) = [p] /\
             prog_imaps p = [0] /\ prog_dmaps p = [0] /\
             prog_argv p = cstr "app1" ++ [nul] /\
             prog_start p = pk + 4096 /\ prog_end p = pk + 4608).
Proof.
  intros (HszH & HszM & HszP & Htop & Hsize & H63 & Hbase & Hptr & Hpk & Haddr).
  set (s0 := align8 (sizeof_syspage_t H)) in *.
  set (s1 := align8 (s0 + sizeof_syspage_map_t H)) in *.
  set (s2 := align8 (s1 + 6)) in *.
  set (s3 := align8 (s2 + sizeof_syspage_prog_t H)) in *.
  pose proof (align8_bounds (sizeof_syspage_t H)) as B0. fold s0 in B0.
  pose proof (align8_bounds (s0 + sizeof_syspage_map_t H)) as B1. fold s1 in B1.
  pose proof (align8_bounds (s1 + 6)) as B2. fold s2 in B2.
  pose proof (align8_bounds (s2 + sizeof_syspage_prog_t H)) as B3. fold s3 in B3.
  set (g0 := sysgen_init H pk off mx).
  assert (S0 : syspage_size g0 = s0).
  { unfold g0, sysgen_init; simpl.
    rewrite ALIGN_ADDR_8_small by lia. apply wrap_small. fold s0. lia. }
  destruct (example1_alias g0)
    as (g1 & E1 & Hal1 & Hs1 & Hm1 & Hp1 & Ho1 & Hmaps1 & Hprogs1).
  assert (R1 : room H g1).
  { unfold room. rewrite Hs1, Hm1, Hp1, Ho1, S0. simpl. repeat split; lia. }
  destruct (example1_map g1 R1 Hmaps1 HszM) as (m & E2 & Hid & Hname).
  { rewrite Hs1, Hm1, S0. simpl. fold s1 s2. lia. }
  rewrite Hs1, S0 in E2. fold s1 s2 in E2.
  set (g2 := set_maps [m] (set_size s2 g1)) in *.
  assert (R2 : room H g2).
  { unfold room, g2. simpl. rewrite Hm1, Hp1, Ho1. simpl. repeat split; lia. }
  pose proof (example1_app g2 _ m R2
                ltac:(unfold sysgen_aliasFind, g2; simpl; rewrite Hal1; reflexivity)
                eq_refl Hname Hid Hprogs1 HszP) as E3.
  simpl syspage_size in E3. fold s3 in E3.
  specialize (E3 ltac:(simpl; rewrite Hm1; simpl; lia)).
  intros r. subst r. unfold sysgen_parseScript.
  let ls := eval vm_compute in (getlines [] example1_dev) in
  change (getlines [] example1_dev) with ls.
  run_line (cstr "alias", sysgen_cmdAlias H) g1 E1.
  run_line (cstr "map", sysgen_cmdMap H) g2 E2.
  match type of E3 with
  | _ = (0, ?g3) => run_line (cstr "app", sysgen_cmdApp H) g3 E3
  end.
  simpl. split; [reflexivity |]. split.
  - exists m. split; [reflexivity | assumption].
  - eexists. split; [reflexivity |]. simpl.
    repeat split.
    + rewrite (wrap_small _ 4096) by lia. rewrite wrap_small by lia. lia.
    + rewrite (wrap_small _ 4096) by lia.
      rewrite (wrap_small _ (4096 + pk)) by lia. rewrite wrap_small by lia. lia.
Qed.

End Example.

(** * The properties at concrete inputs *)

Ltac zcompute :=
  vm_compute; repeat split; try reflexivity; try (intro; discriminate).



Lemma g_ocram_maps : maps g_ocram = [map_ocram].
Proof. vm_compute. reflexivity. Qed.

(** C1: the line [foo bar] is neither blank nor a command, and the script
    that holds it succeeds, the line after it being run. *)
Lemma unknown_command_does_not_fail :
  sysgen_parseScript h32 (Some (script ["foo bar"; "console 1.2"]%string)) g0
  = (0, set_console 2 g0).
Proof. vm_compute. reflexivity. Qed.

Lemma script_aborts_on_failure_witness :
  let line := cstr "map ocram" ++ [newline] in
  until_nul line <> [] /\
  script_loop h32 (line :: [cstr "console 1.2" ++ [newline]]) g0 = (-1, g0).
Proof.
  intros line.
  assert (Hne : until_nul line <> []) by (vm_compute; discriminate).
  split; [exact Hne |].
  destruct (script_aborts_on_failure h32 line
              [cstr "console 1.2" ++ [newline]] g0 Hne) as (_ & Hcmd & _).
  rewrite (Hcmd (cstr "map", sysgen_cmdMap h32));
    [vm_compute; reflexivity | vm_compute; reflexivity | reflexivity
     | vm_compute; reflexivity].
Defined.

(** C2: the script of Example 1 fails at its third line, the [app] command
    having one argument too few, and leaves no program. *)
Lemma example1_fails :
  fst (sysgen_parseScript h32 (Some example1) g0) = -1 /\
  progs (snd (sysgen_parseScript h32 (Some example1) g0)) = [].
Proof. vm_compute. split; reflexivity. Qed.

Lemma example1_with_device_witness :
  example1_fits h32 134217728 1024 4096 /\
  exists p,
    progs (snd (sysgen_parseScript h32 (Some example1_dev)
                  (sysgen_init h32 134217728 1024 4096))) = [p] /\
    prog_start p = 134217728 + 4096 /\ prog_end p = 134217728 + 4608.
Proof.
  assert (F : example1_fits h32 134217728 1024 4096) by zcompute.
  split; [exact F |].
  destruct (example1_with_device h32 134217728 1024 4096 F)
    as (_ & _ & p & Hp & _ & _ & _ & Hs & He).
  exists p. split; [exact Hp |]. split; [exact Hs | exact He].
Defined.

Lemma buffAlloc_bound_witness :
  0 <= syspage_size g0 /\ 0 <= 29 /\ syspage_size g0 + 29 + 7 < 2 ^ 64 /\
  sysgen_buffAlloc h32 29 g0 = (24, set_size 56 g0).
Proof.
  assert (H1 : 0 <= syspage_size g0) by zcompute.
  assert (H2 : 0 <= 29) by lia.
  assert (H3 : syspage_size g0 + 29 + 7 < 2 ^ 64) by zcompute.
  split; [exact H1 |]. split; [exact H2 |]. split; [exact H3 |].
  destruct (buffAlloc_bound h32 29 g0 H1 H2 H3) as (_ & Hok).
  destruct Hok as (Hok & _). destruct (Hok ltac:(zcompute)) as (E & _).
  rewrite E. vm_compute. reflexivity.
Defined.



(** C6: the token [.] is not an integer, a separator and an integer, and
    yet [console .] succeeds and writes 0 to the console field. *)
Theorem lone_separator_is_accepted :
  ~ spec_console_format (cstr ".") /\
  sysgen_cmdConsole h32 [cstr "console"; cstr "."]
    (set_console 7 g0) = (0, set_console 0 g0).
Proof.
  split; [| vm_compute; reflexivity].
  intros (a & b & E & [Ha _] & _).
  destruct a as [| c a]; [apply Ha; reflexivity |].
  injection E as _ E. destruct a; discriminate.
Qed.

Lemma console_examples :
  sysgen_cmdConsole h32 [cstr "console"; cstr "1.2"] g0 = (0, set_console 2 g0)
  /\ sysgen_cmdConsole h32 [cstr "console"; cstr "abc"] g0 = (- EINVAL, g0).
Proof.
  pose proof (console_accepts h32 g0 (cstr "console") (cstr "abc")) as (Hr & _).
  split; [vm_compute; reflexivity |].
  destruct Hr as [Hr | [Hr Hs]]; [vm_compute in Hr; discriminate Hr |].
  destruct (sysgen_cmdConsole h32 [cstr "console"; cstr "abc"] g0) as [c s].
  simpl in Hr, Hs. rewrite Hr, Hs. reflexivity.
Defined.

Lemma alias_find_latest_witness :
  let defs1 := [[cstr "alias"; cstr "app1"; cstr "0x1000"; cstr "0x200"]] in
  let argv := [cstr "alias"; cstr "app1"; cstr "0x2000"; cstr "0x100"] in
  let defs2 := [[cstr "alias"; cstr "app2"; cstr "0x3000"; cstr "0x100"]] in
  fst (sysgen_cmdAlias h32 argv (define_seq h32 defs1 g0)) = 0 /\
  strncpy (nth 1%nat argv []) 31 = cstr "app1" /\
  (forall d, In d defs2 -> strncpy (nth 1%nat d []) 31 <> cstr "app1") /\
  option_map alias_addr
    (sysgen_aliasFind (cstr "app1") (define_seq h32 (defs1 ++ argv :: defs2) g0))
  = Some 8192.
Proof.
  intros defs1 argv defs2.
  assert (H1 : fst (sysgen_cmdAlias h32 argv (define_seq h32 defs1 g0)) = 0)
    by (vm_compute; reflexivity).
  assert (H2 : strncpy (nth 1%nat argv []) 31 = cstr "app1")
    by (vm_compute; reflexivity).
  assert (H3 : forall d, In d defs2 -> strncpy (nth 1%nat d []) 31 <> cstr "app1").
  { intros d [<- | []]. vm_compute. discriminate. }
  split; [exact H1 |]. split; [exact H2 |]. split; [exact H3 |].
  destruct (alias_find_latest h32 g0 defs1 defs2 argv (cstr "app1") H1 H2 H3)
    as (a & Ha & Hf).
  rewrite Hf. vm_compute in Ha. injection Ha as <-. reflexivity.
Defined.

(** C8: the command on the line after a blank line is run. *)
Lemma command_after_blank_line_runs :
  sysgen_parseScript h32 (Some (script [""; "console 1.2"]%string)) g0
  = (0, set_console 2 g0) /\
  console (snd (sysgen_parseScript h32
                  (Some (script [""; "console 1.2"]%string)) g0)) <> console g0.
Proof. split; [vm_compute; reflexivity | vm_compute; discriminate]. Qed.

Lemma blank_line_is_skipped_witness :
  sysgen_parseScript h32
    (Some (cstr "  " ++ newline :: script ["console 1.2"]%string)) g0
  = sysgen_parseScript h32 (Some (script ["console 1.2"]%string)) g0.
Proof.
  destruct (blank_line_is_skipped h32 (script ["console 1.2"]%string) g0)
    as (Hb & _).
  apply Hb. repeat constructor.
Defined.

(** C9: with a capacity of 1 byte, which [main] accepts, the mark that
    [main] sets is beyond the capacity before anything is allocated. *)
Theorem init_mark_exceeds_small_capacity (H : syspage_h) (pk off : Z) :
  0 < sizeof_syspage_t H -> sizeof_syspage_t H + 7 < 2 ^ size_bits H ->
  size_bits H <= 64 ->
  maxsz (sysgen_init H pk off 1) = 1 /\
  1 < syspage_size (sysgen_init H pk off 1) /\
  ~ arena_ok (sysgen_init H pk off 1).
Proof.
  intros Hpos Hfit Hbits.
  assert (Hp : 2 ^ size_bits H <= 2 ^ 64) by (apply Z.pow_le_mono_r; lia).
  assert (E : syspage_size (sysgen_init H pk off 1)
              = align8 (sizeof_syspage_t H)).
  { simpl. rewrite ALIGN_ADDR_8_small by lia.
    pose proof (align8_bounds (sizeof_syspage_t H)).
    apply wrap_small. lia. }
  assert (B : 8 <= align8 (sizeof_syspage_t H)).
  { unfold align8.
    pose proof (Z.div_le_lower_bound (sizeof_syspage_t H + 7) 8 1
                  ltac:(lia) ltac:(lia)). lia. }
  split; [reflexivity |]. split; [rewrite E; lia |].
  intros [_ Hle]. rewrite E in Hle. simpl in Hle. lia.
Qed.

Lemma init_mark_exceeds_small_capacity_witness :
  0 < sizeof_syspage_t h32 /\ sizeof_syspage_t h32 + 7 < 2 ^ size_bits h32 /\
  size_bits h32 <= 64 /\
  maxsz (sysgen_init h32 0 0 1) < syspage_size (sysgen_init h32 0 0 1).
Proof.
  assert (H1 : 0 < sizeof_syspage_t h32) by zcompute.
  assert (H2 : sizeof_syspage_t h32 + 7 < 2 ^ size_bits h32) by zcompute.
  assert (H3 : size_bits h32 <= 64) by zcompute.
  split; [exact H1 |]. split; [exact H2 |]. split; [exact H3 |].
  destruct (init_mark_exceeds_small_capacity h32 0 0 H1 H2 H3) as (Em & Hs & _).
  rewrite Em. exact Hs.
Defined.

(** C10: a name of 40 characters and its first 31 agree on their first 31
    characters, and after the alias was defined under the long name only
    the short one finds it. *)
Lemma long_alias_name_is_not_found :
  firstn 31 name40 = firstn 31 name31 /\
  sysgen_aliasFind name31 g_name40 <> None /\
  sysgen_aliasFind name40 g_name40 = None.
Proof.
  split; [vm_compute; reflexivity |].
  split; [vm_compute; discriminate | vm_compute; reflexivity].
Qed.

Lemma alias_name_truncated_witness :
  sysgen_cmdAlias h32 [cstr "alias"; name40; cstr "0"; cstr "0"] g0
  = (0, g_name40) /\
  sysgen_aliasFind name40 g_name40 = sysgen_aliasFind name40 g0.
Proof.
  assert (E : sysgen_cmdAlias h32 [cstr "alias"; name40; cstr "0"; cstr "0"] g0
              = (0, g_name40)) by (vm_compute; reflexivity).
  split; [exact E |].
  destruct (alias_name_truncated h32 g0 g_name40 (cstr "alias") name40
              (cstr "0") (cstr "0") E) as (_ & Hlong & _).
  apply Hlong. vm_compute. lia.
Defined.

(** * Further properties *)

(** ** The attribute letters *)

Section Attributes.

Variable H : syspage_h.

Lemma strAttr2ui_from_acc (s : cstring) :
  forall a,
    sysgen_strAttr2ui_from H s a =
    option_map (Z.lor a) (sysgen_strAttr2ui_from H s 0).
Proof.
  induction s as [| c r IH]; intros a; simpl.
  - rewrite Z.lor_0_r. reflexivity.
  - repeat match goal with
           | |- context [Ascii.eqb c ?l] => destruct (Ascii.eqb c l)
           end; try reflexivity;
      rewrite (IH (Z.lor a _));
      match goal with
      | |- _ = option_map _ (sysgen_strAttr2ui_from H r ?x) => rewrite (IH x)
      end;
      destruct (sysgen_strAttr2ui_from H r 0); simpl option_map;
      try reflexivity; rewrite Z.lor_assoc; reflexivity.
Qed.

Lemma strAttr2ui_from_app (s t : cstring) :
  forall a,
    sysgen_strAttr2ui_from H (s ++ t) a =
    match sysgen_strAttr2ui_from H s a with
    | Some a' => sysgen_strAttr2ui_from H t a'
    | None => None
    end.
Proof.
  induction s as [| c r IH]; intros a; simpl; [reflexivity |].
  repeat match goal with
         | |- context [Ascii.eqb c ?l] => destruct (Ascii.eqb c l)
         end; try reflexivity; apply IH.
Qed.

(** X1: the mask of a concatenation is the bitwise or of the masks of its
    parts, and the concatenation is refused when a part is; so repeating
    letters or changing their order does not change the mask. *)
Theorem strAttr2ui_app (s t : cstring) :
  sysgen_strAttr2ui H (s ++ t) =
  match sysgen_strAttr2ui H s, sysgen_strAttr2ui H t with
  | Some a, Some b => Some (Z.lor a b)
  | _, _ => None
  end.
Proof.
  unfold sysgen_strAttr2ui. rewrite strAttr2ui_from_app.
  destruct (sysgen_strAttr2ui_from H s 0) as [a |]; [| reflexivity].
  rewrite strAttr2ui_from_acc.
  destruct (sysgen_strAttr2ui_from H t 0); reflexivity.
Qed.

(** X2: a string of attributes is accepted exactly when each of its
    characters is one of the lower-case letters r, w, x, s, c, b. *)
Theorem strAttr2ui_accepts (s : cstring) :
  (exists attr, sysgen_strAttr2ui H s = Some attr) <->
  Forall (fun c => attr_letter c = true) s.
Proof.
  unfold sysgen_strAttr2ui. generalize 0 as a.
  induction s as [| c r IH]; intros a; simpl.
  - split; [constructor | eexists; reflexivity].
  - unfold attr_letter at 1. simpl existsb.
    repeat match goal with
           | |- context [Ascii.eqb c ?l] => destruct (Ascii.eqb c l) eqn:?
           end;
      try (rewrite IH; split;
           [intros Hr; constructor;
            [unfold attr_letter; simpl;
             repeat match goal with
                    | E : Ascii.eqb _ _ = _ |- _ => rewrite E; clear E
                    end; reflexivity
            | assumption]
           | intros Hr; inversion Hr; assumption]).
    split; [intros [x Hx]; discriminate |].
    intros Hr. inversion Hr as [| c0 r0 Hc Hr0]. subst.
    unfold attr_letter in Hc. simpl in Hc.
    repeat match goal with
           | E : Ascii.eqb _ _ = _ |- _ => rewrite E in Hc; clear E
           end. discriminate.
Qed.

End Attributes.

(** ** Programs *)

Lemma set_size_same (g : sysgen_common) : set_size (syspage_size g) g = g.
Proof. destruct g; reflexivity. Qed.

Lemma mapsAdd2Prog_ext (nb : nat) (g g' : sysgen_common) :
  maps g = maps g' ->
  forall buf, sysgen_mapsAdd2Prog nb buf g = sysgen_mapsAdd2Prog nb buf g'.
Proof.
  intros E. induction nb as [| k IH]; intros buf; simpl; [reflexivity |].
  unfold sysgen_mapNameResolve. rewrite E, IH. reflexivity.
Qed.

Section Programs.

Variable H : syspage_h.

(** The two results of [sysgen_appAdd]. *)
Lemma appAdd_cases (name imaps dmaps appArgv : cstring) (flags : Z)
  (g : sysgen_common) :
  let r := sysgen_appAdd H name imaps dmaps appArgv flags g in
  (fst r = -1 /\ exists v, snd r = set_size v g) \/
  (fst r = 0 /\
   exists a v ptr iids dids,
     sysgen_aliasFind name g = Some a /\
     sysgen_mapsAdd2Prog (Z.to_nat (snd (sysgen_mapsParse imaps ";")))
       (fst (sysgen_mapsParse imaps ";")) g = Some iids /\
     sysgen_mapsAdd2Prog (Z.to_nat (snd (sysgen_mapsParse dmaps ";")))
       (fst (sysgen_mapsParse dmaps ";")) g = Some dids /\
     ptr <> 0 /\
     snd r =
     set_progs
       (progs g ++
        [ {| prog_ptr := ptr; prog_start := alias_addr a;
             prog_end := wrap (addr_bits H) (alias_addr a + alias_size a);
             prog_imaps := iids; prog_dmaps := dids;
             prog_argv :=
               (if Z.land flags flagSyspageExec =? 0 then [] else ["X"%char])
               ++ appArgv ++ [nul] |} ])
       (set_size v g)).
Proof.
  unfold sysgen_appAdd.
  destruct (sysgen_aliasFind name g) as [a |] eqn:Ea.
  2:{ left. split; [reflexivity |]. exists (syspage_size g).
      symmetry. apply set_size_same. }
  destruct (sysgen_mapsParse imaps ";") as [ibuf imapSz].
  destruct (sysgen_mapsParse dmaps ";") as [dbuf dmapSz].
  set (isExec := if Z.land flags flagSyspageExec =? 0 then 0 else 1).
  set (argvSz := isExec + strlen appArgv + 1).
  destruct (sysgen_buffAlloc H (sizeof_syspage_prog_t H) g) as [ptr g1] eqn:E1.
  assert (C1 : alloc_chain H g g1).
  { replace g1 with (snd (sysgen_buffAlloc H (sizeof_syspage_prog_t H) g))
      by (rewrite E1; reflexivity). apply alloc_chain_one. }
  assert (F : forall g', alloc_chain H g g' -> exists v, g' = set_size v g)
    by (intros g'; apply alloc_chain_frame).
  destruct (Z.eqb_spec ptr 0) as [| Hptr];
    [left; split; [reflexivity | apply F; assumption] |].
  destruct (sysgen_buffAlloc H dmapSz g1) as [pd g2] eqn:E2.
  destruct (sysgen_buffAlloc H imapSz g2) as [pi g3] eqn:E3.
  destruct (sysgen_buffAlloc H argvSz g3) as [pa g4] eqn:E4.
  assert (C4 : alloc_chain H g g4).
  { eapply alloc_chain_trans; [exact C1 |].
    eapply chain_step. rewrite E2. simpl.
    eapply chain_step. rewrite E3. simpl.
    eapply chain_step. rewrite E4. simpl. apply chain_nil. }
  destruct (F g4 C4) as [v Hv].
  assert (Hm : maps g4 = maps g) by (rewrite Hv; reflexivity).
  destruct (_ || _); [left; split; [reflexivity | exists v; assumption] |].
  rewrite !(mapsAdd2Prog_ext _ g4 g Hm).
  destruct (sysgen_mapsAdd2Prog (Z.to_nat imapSz) ibuf g) as [iids |] eqn:Ei;
    [| left; split; [reflexivity | exists v; assumption]].
  destruct (sysgen_mapsAdd2Prog (Z.to_nat dmapSz) dbuf g) as [dids |] eqn:Ed;
    [| left; split; [reflexivity | exists v; assumption]].
  right. split; [reflexivity |].
  exists a, v, ptr, iids, dids.
  split; [reflexivity |]. split; [exact Ei |]. split; [exact Ed |].
  split; [exact Hptr |].
  simpl. rewrite Hv. simpl. f_equal. f_equal. f_equal. f_equal.
  unfold isExec. destruct (Z.land flags flagSyspageExec =? 0); reflexivity.
Qed.



End Programs.

(** ** Lists of map names *)

Lemma mapsParse_name (n : cstring) :
  Forall (fun c => c <> ";"%char) n -> sysgen_mapsParse n ";" = (n, 1).
Proof.
  induction 1 as [| c r Hc _ IH]; simpl; [reflexivity |].
  rewrite IH. destruct (Ascii.eqb_spec c ";"%char); [contradiction | reflexivity].
Qed.

Lemma mapsParse_cons (n rest : cstring) :
  Forall (fun c => c <> ";"%char) n ->
  sysgen_mapsParse (n ++ ";"%char :: rest) ";" =
  (n ++ nul :: fst (sysgen_mapsParse rest ";"),
   snd (sysgen_mapsParse rest ";") + 1).
Proof.
  induction 1 as [| c r Hc _ IH]; simpl.
  - destruct (sysgen_mapsParse rest ";"). reflexivity.
  - rewrite IH. destruct (Ascii.eqb_spec c ";"%char); [contradiction | reflexivity].
Qed.

Lemma until_nul_name (n rest : list ascii) :
  Forall (fun c => code c <> 0) n -> until_nul (n ++ nul :: rest) = n.
Proof.
  induction 1 as [| c r Hc _ IH]; simpl; [reflexivity |].
  destruct (Z.eqb_spec (code c) 0); [contradiction | rewrite IH; reflexivity].
Qed.

Lemma skipn_name (n rest : list ascii) :
  skipn (S (List.length n)) (n ++ nul :: rest) = rest.
Proof. induction n as [| c r IH]; simpl; [reflexivity | exact IH]. Qed.

Lemma mapsParse_join (ns : list cstring) :
  ns <> [] ->
  Forall (Forall (fun c => c <> ";"%char)) ns ->
  sysgen_mapsParse (join ";" ns) ";" = (join nul ns, Z.of_nat (List.length ns)).
Proof.
  intros Hne Hall. induction Hall as [| n r Hn Hr IH]; [contradiction |].
  destruct r as [| n' r'].
  - simpl. apply mapsParse_name. assumption.
  - change (join ";" (n :: n' :: r')) with (n ++ ";"%char :: join ";" (n' :: r')).
    change (join nul (n :: n' :: r')) with (n ++ nul :: join nul (n' :: r')).
    rewrite mapsParse_cons by assumption.
    rewrite IH by discriminate. cbn [fst snd].
    f_equal. change (List.length (n :: n' :: r')) with (S (List.length (n' :: r'))).
    rewrite Nat2Z.inj_succ. apply Z.add_1_r.
Qed.

Lemma mapsAdd2Prog_S (k : nat) (buf : list ascii) (g : sysgen_common) :
  sysgen_mapsAdd2Prog (S k) buf g =
  match sysgen_mapNameResolve (until_nul buf) g with
  | None => None
  | Some id =>
      match sysgen_mapsAdd2Prog k
              (skipn (S (List.length (until_nul buf))) buf) g with
      | None => None
      | Some ids => Some (id :: ids)
      end
  end.
Proof. reflexivity. Qed.

Lemma mapsAdd2Prog_join (ns : list cstring) (g : sysgen_common) :
  ns <> [] ->
  Forall (Forall (fun c => code c <> 0)) ns ->
  sysgen_mapsAdd2Prog (List.length ns) (join nul ns) g = resolve_all ns g.
Proof.
  intros Hne Hall. induction Hall as [| n r Hn Hr IH]; [contradiction |].
  destruct r as [| n' r'].
  - simpl. rewrite (until_nul_id n Hn).
    destruct (sysgen_mapNameResolve n g); reflexivity.
  - change (join nul (n :: n' :: r')) with (n ++ nul :: join nul (n' :: r')).
    remember (n' :: r') as l eqn:El in *.
    change (List.length (n :: l)) with (S (List.length l)).
    rewrite mapsAdd2Prog_S.
    rewrite until_nul_name by assumption. rewrite skipn_name.
    specialize (IH ltac:(subst l; discriminate)).
    cbn [resolve_all]. rewrite <- IH. reflexivity.
Qed.

(** X4: for a list of one or more map names joined by semicolons, each
    name free of semicolons and zero bytes, [sysgen_mapsParse] counts the
    names and [sysgen_mapsAdd2Prog] then resolves them one by one in
    order: the result is the list of their ids, or a failure when one of
    them is not the name of a map. *)
Theorem maps_list_resolution (ns : list cstring) (g : sysgen_common) :
  ns <> [] ->
  Forall (Forall (fun c => c <> ";"%char /\ code c <> 0)) ns ->
  snd (sysgen_mapsParse (join ";" ns) ";") = Z.of_nat (List.length ns) /\
  sysgen_mapsAdd2Prog (Z.to_nat (snd (sysgen_mapsParse (join ";" ns) ";")))
    (fst (sysgen_mapsParse (join ";" ns) ";")) g
  = resolve_all ns g.
Proof.
  intros Hne Hall.
  assert (H1 : Forall (Forall (fun c => c <> ";"%char)) ns).
  { eapply Forall_impl; [| exact Hall]. intros n Hn.
    eapply Forall_impl; [| exact Hn]. intros c [Hc _]. exact Hc. }
  assert (H2 : Forall (Forall (fun c => code c <> 0)) ns).
  { eapply Forall_impl; [| exact Hall]. intros n Hn.
    eapply Forall_impl; [| exact Hn]. intros c [_ Hc]. exact Hc. }
  rewrite mapsParse_join by assumption. cbn [fst snd].
  split; [reflexivity |].
  rewrite Nat2Z.id. apply mapsAdd2Prog_join; assumption.
Qed.

(** ** The registries over a run *)

Lemma grows_refl (g : sysgen_common) : grows g g.
Proof.
  unfold grows. repeat split; try (exists []; rewrite ?app_nil_r; reflexivity).
Qed.

Lemma grows_trans (g1 g2 g3 : sysgen_common) :
  grows g1 g2 -> grows g2 g3 -> grows g1 g3.
Proof.
  intros ([m1 Hm1] & [p1 Hp1] & [a1 Ha1] & Hk1 & Ho1 & Hx1)
         ([m2 Hm2] & [p2 Hp2] & [a2 Ha2] & Hk2 & Ho2 & Hx2).
  unfold grows. repeat split; try congruence.
  - exists (m1 ++ m2). rewrite Hm2, Hm1, app_assoc. reflexivity.
  - exists (p1 ++ p2). rewrite Hp2, Hp1, app_assoc. reflexivity.
  - exists (a2 ++ a1). rewrite Ha2, Ha1, app_assoc. reflexivity.
Qed.

Lemma grows_set_size (v : Z) (g : sysgen_common) : grows g (set_size v g).
Proof.
  unfold grows. simpl.
  repeat split; try (exists []; rewrite ?app_nil_r; reflexivity).
Qed.

Lemma mapsAdd2Prog_ids (nb : nat) (g : sysgen_common) :
  forall buf ids,
    sysgen_mapsAdd2Prog nb buf g = Some ids ->
    forall id, In id ids -> exists m, In m (maps g) /\ id = wrap 8 (map_id m).
Proof.
  induction nb as [| k IH]; intros buf ids E id Hin; simpl in E.
  - injection E as <-. contradiction.
  - unfold sysgen_mapNameResolve in E.
    destruct (find _ (maps g)) as [m |] eqn:Ef; [| discriminate].
    destruct (sysgen_mapsAdd2Prog k _ g) as [ids' |] eqn:Ek; [| discriminate].
    injection E as <-. destruct Hin as [<- | Hin].
    + exists m. split; [| reflexivity]. apply find_some in Ef. tauto.
    + eapply IH; eassumption.
Qed.

Section Registries.

Variable H : syspage_h.

(** What a command does to the registries: a failing command moves at
    most the arena mark; a successful one adds at most one record. *)
Lemma cmdAlias_frame (argv : list cstring) (g : sysgen_common) :
  let r := sysgen_cmdAlias H argv g in
  (fst r = -1 /\ snd r = g) \/
  (fst r = 0 /\ exists a i,
     snd r = set_aliases (a :: aliases g) (set_imgsz i g)).
Proof.
  unfold sysgen_cmdAlias.
  repeat break_match; simpl; try (left; split; reflexivity);
    right; (split; [reflexivity |]); eexists; eexists.
  - reflexivity.
  - instantiate (1 := hs_imgsz g). destruct g; reflexivity.
Qed.

Lemma cmdConsole_frame (argv : list cstring) (g : sysgen_common) :
  let r := sysgen_cmdConsole H argv g in
  (fst r = - EINVAL /\ snd r = g) \/
  (fst r = 0 /\ exists v, snd r = set_console v g).
Proof.
  unfold sysgen_cmdConsole.
  repeat break_match; simpl; try (left; split; reflexivity);
    right; (split; [reflexivity |]); eexists; reflexivity.
Qed.

Lemma mapAdd_frame (name : cstring) (s e a : Z) (g : sysgen_common) :
  let r := sysgen_mapAdd H name s e a g in
  (fst r = -1 /\ exists v, snd r = set_size v g) \/
  (fst r = 0 /\ exists m v, snd r = set_maps (maps g ++ [m]) (set_size v g)).
Proof.
  intros r. subst r.
  destruct (mapAdd_cases H name s e a g)
    as [g1 [Hc [[Hf Hs] | [Hf [ptr Hs]]]]];
    destruct (alloc_chain_frame H _ _ Hc) as [v Hv].
  - left. split; [assumption |]. exists v. congruence.
  - right. split; [assumption |]. eexists. exists v. rewrite Hs, Hv. reflexivity.
Qed.

Lemma cmdMap_frame (argv : list cstring) (g : sysgen_common) :
  let r := sysgen_cmdMap H argv g in
  (fst r = -1 /\ exists v, snd r = set_size v g) \/
  (fst r = 0 /\ exists m v, snd r = set_maps (maps g ++ [m]) (set_size v g)).
Proof.
  assert (F : (-1 = -1 /\ exists v, g = set_size v g)).
  { split; [reflexivity |]. exists (syspage_size g). symmetry. apply set_size_same. }
  unfold sysgen_cmdMap, sysgen_mapOverlapping.
  destruct argv as [| c [| n [| a2 [| a3 [| a4 [| a5 rest]]]]]];
    try (left; exact F).
  destruct (strtoul a2) as [v2 [| x2 e2]]; [| left; exact F].
  destruct (strtoul a3) as [v3 [| x3 e3]]; [| left; exact F].
  destruct (sysgen_strAttr2ui H a4) as [attr |]; [| left; exact F].
  destruct (existsb _ (maps g)); [left; exact F |].
  simpl (0 <? 0). cbv iota. apply mapAdd_frame.
Qed.

Lemma cmdApp_frame (argv : list cstring) (g : sysgen_common) :
  let r := sysgen_cmdApp H argv g in
  (fst r = -1 /\ exists v, snd r = set_size v g) \/
  (fst r = 0 /\ exists p v,
     snd r = set_progs (progs g ++ [p]) (set_size v g) /\
     forall id, In id (prog_imaps p ++ prog_dmaps p) ->
                exists m, In m (maps g) /\ id = wrap 8 (map_id m)).
Proof.
  assert (A : forall name imaps dmaps appArgv flags,
             let r := sysgen_appAdd H name imaps dmaps appArgv flags g in
             (fst r = -1 /\ exists v, snd r = set_size v g) \/
             (fst r = 0 /\ exists p v,
                snd r = set_progs (progs g ++ [p]) (set_size v g) /\
                forall id, In id (prog_imaps p ++ prog_dmaps p) ->
                           exists m, In m (maps g) /\ id = wrap 8 (map_id m))).
  { intros name imaps dmaps appArgv flags.
    destruct (appAdd_cases H name imaps dmaps appArgv flags g)
      as [Hf | (Hf & a & v & ptr & iids & dids & _ & Hi & Hd & _ & Hs)];
      [left; exact Hf |].
    right. split; [exact Hf |]. eexists. exists v. split; [exact Hs |].
    simpl. intros id Hin. apply in_app_or in Hin. destruct Hin as [Hin | Hin].
    - eapply mapsAdd2Prog_ids; [exact Hi | exact Hin].
    - eapply mapsAdd2Prog_ids; [exact Hd | exact Hin]. }
  assert (F : (-1 = -1 /\ exists v, g = set_size v g)).
  { split; [reflexivity |]. exists (syspage_size g). symmetry. apply set_size_same. }
  unfold sysgen_cmdApp. cbv zeta.
  repeat break_match; try (left; exact F); apply A.
Qed.


Lemma cmd_grows (cmd : cmd_t) (argv : list cstring) (g : sysgen_common) :
  In cmd (cmds H) -> grows g (snd (snd cmd argv g)).
Proof.
  unfold cmds. simpl.
  intros [<- | [<- | [<- | [<- | []]]]]; simpl.
  - destruct (cmdAlias_frame argv g) as [[_ Hs] | [_ (a & i & Hs)]]; rewrite Hs.
    + apply grows_refl.
    + unfold grows. simpl.
      repeat split; try (exists []; rewrite ?app_nil_r; reflexivity).
      exists [a]. reflexivity.
  - destruct (cmdMap_frame argv g) as [[_ [v Hs]] | [_ (m & v & Hs)]]; rewrite Hs.
    + apply grows_set_size.
    + unfold grows. simpl.
      repeat split; try (exists []; rewrite ?app_nil_r; reflexivity).
      exists [m]. reflexivity.
  - destruct (cmdApp_frame argv g) as [[_ [v Hs]] | [_ (p & v & Hs & _)]];
      rewrite Hs.
    + apply grows_set_size.
    + unfold grows. simpl.
      repeat split; try (exists []; rewrite ?app_nil_r; reflexivity).
      exists [p]. reflexivity.
  - destruct (cmdConsole_frame argv g) as [[_ Hs] | [_ [v Hs]]]; rewrite Hs.
    + apply grows_refl.
    + unfold grows. simpl.
      repeat split; try (exists []; rewrite ?app_nil_r; reflexivity).
Qed.

Lemma parseScript_grows (file : option (list ascii)) (g : sysgen_common) :
  grows g (snd (sysgen_parseScript H file g)).
Proof.
  apply (parseScript_preserves H (fun g' => grows g g')).
  - intros cmd argv g' Hin Hg. eapply grows_trans; [exact Hg |].
    apply cmd_grows. assumption.
  - apply grows_refl.
Qed.




End Registries.

(** ** Maps and the ids programs hold *)



Section Maps.

Variable H : syspage_h.






End Maps.

(** ** The arguments of a line *)

Lemma isgraph_not_isspace (c : ascii) : isgraph c = true -> isspace c = false.
Proof.
  unfold isgraph, isspace. intros Hg.
  apply andb_true_iff in Hg. destruct Hg as [H1 H2].
  apply Z.leb_le in H1. apply Z.leb_le in H2.
  apply orb_false_iff. split.
  - apply Z.eqb_neq. lia.
  - apply andb_false_iff. right. apply Z.leb_gt. lia.
Qed.

Lemma copy_graph_graph (lines : cstring) (room : nat) :
  Forall (fun c => isgraph c = true) (fst (copy_graph lines room)).
Proof.
  revert lines. induction room as [| k IH]; intros [| c r]; simpl;
    try constructor.
  destruct (isgraph c) eqn:Eg; [| constructor].
  specialize (IH r). destruct (copy_graph r k) as [tok rest]. simpl in *.
  constructor; assumption.
Qed.

Lemma copy_graph_stuck (c : ascii) (r : cstring) (room : nat) :
  isgraph c = false -> copy_graph (c :: r) room = ([], c :: r).
Proof. intros Hg. destruct room; simpl; [| rewrite Hg]; reflexivity. Qed.

Lemma copy_graph_token (t more : cstring) (room : nat) :
  Forall (fun c => isgraph c = true) t ->
  more = [] \/ (exists c r, more = c :: r /\ isgraph c = false) ->
  (List.length t < room)%nat ->
  copy_graph (t ++ more) room = (t, more).
Proof.
  intros Ht Hmore. revert room. induction Ht as [| c t Hc _ IH]; intros room Hr.
  - simpl. destruct Hmore as [-> | (c & r & -> & Hc)].
    + destruct room; reflexivity.
    + apply copy_graph_stuck. assumption.
  - destruct room as [| k]; [simpl in Hr; lia |].
    simpl. rewrite Hc. rewrite IH by (simpl in Hr; lia). reflexivity.
Qed.

Lemma args_size_app (l : list cstring) (t : cstring) :
  args_size (l ++ [t]) = args_size l + strlen t + 1.
Proof.
  unfold args_size. induction l as [| x l IH]; simpl; [lia |].
  rewrite IH. lia.
Qed.

Lemma args_size_nonneg (l : list cstring) : 0 <= args_size l.
Proof.
  unfold args_size, strlen. induction l as [| x l IH]; simpl; lia.
Qed.

Section Tokens.

Variables bufsz argvsz : Z.

(** A character that is neither white space nor graphic stops the scan:
    the loop adds empty arguments in front of it until it fails. *)
Lemma parseArgLine_loop_stuck (fuel : nat) :
  forall c r used argv res,
    isspace c = false -> isgraph c = false ->
    parseArgLine_loop fuel (c :: r) used bufsz argvsz argv = Some res ->
    fst res = - EINVAL \/ fst res = - ENOMEM.
Proof.
  induction fuel as [| f IH]; intros c r used argv res Hs Hg E;
    [discriminate |].
  cbn [parseArgLine_loop] in E. rewrite Hs in E.
  destruct (_ >=? argvsz); [injection E as <-; left; reflexivity |].
  rewrite (copy_graph_stuck c r _ Hg) in E.
  destruct (_ >=? bufsz); [injection E as <-; right; reflexivity |].
  eapply IH; eassumption.
Qed.

Lemma parseArgLine_loop_ok (fuel : nat) :
  forall lines used argv res,
    Forall token_ok argv -> used = args_size argv -> used <= bufsz ->
    argv = [] \/ Z.of_nat (List.length argv) < argvsz ->
    parseArgLine_loop fuel lines used bufsz argvsz argv = Some res ->
    (fst res = - EINVAL \/ fst res = - ENOMEM) \/
    (fst res = Z.of_nat (List.length (snd res)) /\
     Forall token_ok (snd res) /\ args_size (snd res) <= bufsz /\
     (snd res = [] \/ Z.of_nat (List.length (snd res)) < argvsz)).
Proof.
  induction fuel as [| f IH]; intros lines used argv res Hok Hu Hb Hn E;
    [discriminate |].
  assert (Done : forall r0, Some (Z.of_nat (List.length argv), argv) = Some r0 ->
            (fst r0 = - EINVAL \/ fst r0 = - ENOMEM) \/
            (fst r0 = Z.of_nat (List.length (snd r0)) /\
             Forall token_ok (snd r0) /\ args_size (snd r0) <= bufsz /\
             (snd r0 = [] \/ Z.of_nat (List.length (snd r0)) < argvsz))).
  { intros r0 E0. injection E0 as <-. right. simpl.
    repeat split; try assumption. lia. }
  cbn [parseArgLine_loop] in E.
  destruct lines as [| c r]; [apply Done; assumption |].
  destruct (isspace c) eqn:Es.
  - destruct (isblank c); [| apply Done; assumption].
    eapply IH; eassumption.
  - destruct (isgraph c) eqn:Eg.
    2:{ left. eapply (parseArgLine_loop_stuck (S f)); [exact Es | exact Eg |].
        cbn [parseArgLine_loop]. rewrite Es. exact E. }
    destruct (Z.geb_spec (Z.of_nat (List.length argv) + 1) argvsz) as [| Hlt];
      [injection E as <-; left; left; reflexivity |].
    pose proof (copy_graph_graph (c :: r) (Z.to_nat (bufsz - used))) as Hg.
    destruct (Z.to_nat (bufsz - used)) as [| k] eqn:Er.
    + simpl in E. replace (used + strlen [] >=? bufsz) with true in E
        by (symmetry; apply Z.geb_le; unfold strlen; simpl; lia).
      injection E as <-. left. right. reflexivity.
    + simpl in E, Hg. rewrite Eg in E, Hg.
      destruct (copy_graph r k) as [tok rest]. simpl in Hg.
      destruct (Z.geb_spec (used + strlen (c :: tok)) bufsz) as [| Hfit];
        [injection E as <-; left; right; reflexivity |].
      eapply IH; [| | | | exact E].
      * apply Forall_app. split; [assumption |].
        constructor; [| constructor]. split; [discriminate | assumption].
      * rewrite args_size_app. lia.
      * lia.
      * right. rewrite length_app. simpl.
        rewrite Nat2Z.inj_add. simpl. lia.
Qed.

(** X11: [sysgen_parseArgLine] returns -EINVAL, -ENOMEM or the number of
    arguments it found.  In the last case every argument is a non-empty
    string of graphic characters, the arguments with their terminators
    fit the buffer, and their number is below the size of the argument
    vector, so a place is left for the closing null pointer. *)
Theorem parseArgLine_ok (lines : cstring) :
  0 <= bufsz ->
  let r := sysgen_parseArgLine lines bufsz argvsz in
  (fst r = - EINVAL \/ fst r = - ENOMEM) \/
  (fst r = Z.of_nat (List.length (snd r)) /\
   Forall token_ok (snd r) /\ args_size (snd r) <= bufsz /\
   (snd r = [] \/ Z.of_nat (List.length (snd r)) < argvsz)).
Proof.
  intros Hb r. subst r.
  destruct (parseArgLine_total lines bufsz argvsz) as (res & Hres & ->).
  eapply parseArgLine_loop_ok; [| | | | exact Hres].
  - constructor.
  - reflexivity.
  - assumption.
  - left. reflexivity.
Qed.

Lemma join_cons (t : cstring) (toks : list cstring) :
  toks <> [] -> join space (t :: toks) = t ++ space :: join space toks.
Proof. destruct toks; [contradiction | reflexivity]. Qed.

Lemma parseArgLine_loop_join (tail : cstring) (toks : list cstring) :
  tail = [] \/ tail = [newline] ->
  Forall token_ok toks ->
  forall fuel used argv,
    Z.of_nat (List.length argv) + Z.of_nat (List.length toks) < argvsz ->
    0 <= used -> used + args_size toks <= bufsz ->
    (2 * List.length toks + 1 <= fuel)%nat ->
    parseArgLine_loop fuel (join space toks ++ tail) used bufsz argvsz argv
    = Some (Z.of_nat (List.length (argv ++ toks)), argv ++ toks).
Proof.
  intros Htail Htoks. induction Htoks as [| t toks [Hne Hg] _ IH];
    intros fuel used argv Hn Hu Hfit Hf.
  - destruct fuel as [| f]; [simpl in Hf; lia |].
    rewrite app_nil_r. simpl join. simpl app.
    destruct Htail as [-> | ->]; reflexivity.
  - destruct fuel as [| f]; [simpl in Hf; lia |].
    destruct t as [| c t']; [contradiction |].
    assert (Hc : isgraph c = true) by (inversion Hg; assumption).
    set (more := match toks with
                 | [] => tail
                 | _ :: _ => space :: join space toks ++ tail
                 end).
    assert (Hline : join space ((c :: t') :: toks) ++ tail = (c :: t') ++ more).
    { unfold more. destruct toks as [| t2 toks'].
      - reflexivity.
      - rewrite join_cons by discriminate. rewrite <- app_assoc. reflexivity. }
    assert (Hmore : more = [] \/ exists c0 r0, more = c0 :: r0 /\ isgraph c0 = false).
    { unfold more. destruct toks.
      - destruct Htail as [-> | ->]; [left; reflexivity |].
        right. eexists _, _. split; reflexivity.
      - right. eexists _, _. split; reflexivity. }
    change (args_size ((c :: t') :: toks))
      with (strlen (c :: t') + 1 + args_size toks) in Hfit.
    pose proof (args_size_nonneg toks) as Hpos.
    assert (Hlen : strlen (c :: t') = Z.of_nat (List.length (c :: t')))
      by reflexivity.
    transitivity (parseArgLine_loop (S f) ((c :: t') ++ more) used bufsz
                    argvsz argv); [f_equal; exact Hline |].
    cbn [parseArgLine_loop app].
    rewrite (isgraph_not_isspace c Hc).
    simpl List.length in Hn.
    destruct (Z.geb_spec (Z.of_nat (List.length argv) + 1) argvsz) as [| _];
      [lia |].
    change (c :: t' ++ more) with ((c :: t') ++ more).
    rewrite copy_graph_token by (assumption || lia).
    destruct (Z.geb_spec (used + strlen (c :: t')) bufsz) as [| _]; [lia |].
    assert (Hres : Some (Z.of_nat (List.length ((argv ++ [c :: t']) ++ toks)),
                         (argv ++ [c :: t']) ++ toks)
                   = Some (Z.of_nat (List.length (argv ++ (c :: t') :: toks)),
                           argv ++ (c :: t') :: toks))
      by (rewrite <- app_assoc; reflexivity).
    etransitivity; [| exact Hres]. clear Hres.
    unfold more. destruct toks as [| t2 toks'].
    + apply (IH f (used + strlen (c :: t') + 1) (argv ++ [c :: t'])).
      * rewrite length_app. simpl. lia.
      * lia.
      * simpl. lia.
      * simpl in *. lia.
    + destruct f as [| f']; [simpl in Hf; lia |].
      cbn [parseArgLine_loop]. change (isspace space) with true.
      change (isblank space) with true. cbv iota.
      apply (IH f' (used + strlen (c :: t') + 1) (argv ++ [c :: t'])).
      * rewrite length_app. simpl List.length in *. lia.
      * lia.
      * lia.
      * simpl List.length in *. lia.
Qed.

Lemma length_join (toks : list cstring) :
  Forall token_ok toks ->
  (2 * List.length toks <= List.length (join space toks) + 1)%nat.
Proof.
  induction 1 as [| t toks [Hne _] _ IH]; [simpl; lia |].
  destruct t as [| c t']; [contradiction |].
  destruct toks as [| t2 toks'].
  - simpl. lia.
  - rewrite join_cons by discriminate. rewrite length_app.
    simpl List.length in *. lia.
Qed.

(** X12: a line made of at most [argvsz - 1] arguments, each a non-empty
    string of graphic characters, with one space between them and a
    newline or nothing after them, is cut back into exactly these
    arguments, provided they fit the buffer with their terminators. *)
Theorem parseArgLine_join (toks : list cstring) (tail : cstring) :
  Forall token_ok toks ->
  tail = [] \/ tail = [newline] ->
  Z.of_nat (List.length toks) < argvsz ->
  args_size toks <= bufsz ->
  sysgen_parseArgLine (join space toks ++ tail) bufsz argvsz
  = (Z.of_nat (List.length toks), toks).
Proof.
  intros Htoks Htail Hn Hfit. unfold sysgen_parseArgLine.
  rewrite (parseArgLine_loop_join tail toks Htail Htoks _ 0 []).
  - reflexivity.
  - simpl. lia.
  - lia.
  - lia.
  - pose proof (length_join toks Htoks) as Hl.
    unfold parseArgLine_fuel. rewrite length_app. lia.
Qed.

End Tokens.

(** ** The limits of a line *)

Lemma copy_graph_long (t more : cstring) (room : nat) :
  Forall (fun c => isgraph c = true) t ->
  (room <= List.length t)%nat ->
  List.length (fst (copy_graph (t ++ more) room)) = room.
Proof.
  intros Ht. revert room. induction Ht as [| c t Hc _ IH]; intros room Hr.
  - simpl in Hr. assert (room = 0%nat) by lia. subst room.
    destruct more; reflexivity.
  - destruct room as [| k]; [reflexivity |].
    simpl. rewrite Hc. specialize (IH k ltac:(simpl in Hr; lia)).
    destruct (copy_graph (t ++ more) k) as [tok rest]. simpl in *.
    rewrite IH. reflexivity.
Qed.

Section Limits.

Variables bufsz argvsz : Z.

(** The loop over a run of arguments that fit: it arrives behind them
    with the arguments added and the buffer filled by them. *)
Lemma parseArgLine_loop_tokens (more : cstring) (toks : list cstring) :
  more = [] \/ (exists c r, more = c :: r /\ isgraph c = false) ->
  Forall token_ok toks ->
  forall t k used argv,
    token_ok t ->
    Z.of_nat (List.length argv) + Z.of_nat (List.length (t :: toks)) < argvsz ->
    0 <= used -> used + args_size (t :: toks) <= bufsz ->
    parseArgLine_loop (S (2 * List.length toks) + k)
      (join space (t :: toks) ++ more) used bufsz argvsz argv
    = parseArgLine_loop k more (used + args_size (t :: toks)) bufsz argvsz
        (argv ++ t :: toks).
Proof.
  intros Hmore Htoks. induction Htoks as [| t2 toks Ht2 _ IH];
    intros t k used argv [Hne Hg] Hn Hu Hfit.
  - destruct t as [| c t']; [contradiction |].
    assert (Hc : isgraph c = true) by (inversion Hg; assumption).
    change (args_size [c :: t']) with (strlen (c :: t') + 1 + 0) in *.
    assert (Hlen : strlen (c :: t') = Z.of_nat (List.length (c :: t')))
      by reflexivity.
    simpl List.length in Hn.
    change (join space [c :: t'] ++ more) with ((c :: t') ++ more).
    change (S (2 * List.length (@nil cstring)) + k)%nat with (S k).
    cbn [parseArgLine_loop app].
    rewrite (isgraph_not_isspace c Hc).
    destruct (Z.geb_spec (Z.of_nat (List.length argv) + 1) argvsz) as [| _];
      [lia |].
    change (c :: t' ++ more) with ((c :: t') ++ more).
    rewrite copy_graph_token by (assumption || lia).
    destruct (Z.geb_spec (used + strlen (c :: t')) bufsz) as [| _]; [lia |].
    f_equal. lia.
  - destruct t as [| c t']; [contradiction |].
    assert (Hc : isgraph c = true) by (inversion Hg; assumption).
    change (args_size ((c :: t') :: t2 :: toks))
      with (strlen (c :: t') + 1 + args_size (t2 :: toks)) in *.
    pose proof (args_size_nonneg (t2 :: toks)) as Hpos.
    assert (Hlen : strlen (c :: t') = Z.of_nat (List.length (c :: t')))
      by reflexivity.
    assert (Hline : join space ((c :: t') :: t2 :: toks) ++ more
                    = (c :: t') ++ space :: join space (t2 :: toks) ++ more).
    { rewrite join_cons by discriminate. rewrite <- app_assoc. reflexivity. }
    assert (Hfuel : (S (2 * List.length (t2 :: toks)) + k
                     = S (S (S (2 * List.length toks) + k)))%nat)
      by (simpl List.length; lia).
    transitivity (parseArgLine_loop (S (S (S (2 * List.length toks) + k)))
                    ((c :: t') ++ space :: join space (t2 :: toks) ++ more)
                    used bufsz argvsz argv);
      [f_equal; [exact Hfuel | exact Hline] |].
    cbn [parseArgLine_loop app].
    rewrite (isgraph_not_isspace c Hc).
    change (List.length ((c :: t') :: t2 :: toks))
      with (S (List.length (t2 :: toks))) in Hn.
    rewrite Nat2Z.inj_succ in Hn.
    destruct (Z.geb_spec (Z.of_nat (List.length argv) + 1) argvsz) as [| _];
      [lia |].
    change (c :: t' ++ space :: join space (t2 :: toks) ++ more)
      with ((c :: t') ++ space :: join space (t2 :: toks) ++ more).
    rewrite copy_graph_token;
      [| assumption | right; eexists _, _; split; reflexivity | lia].
    destruct (Z.geb_spec (used + strlen (c :: t')) bufsz) as [| _]; [lia |].
    change (isspace space) with true. change (isblank space) with true.
    cbv iota.
    assert (Hres : (argv ++ [c :: t']) ++ t2 :: toks
                   = argv ++ (c :: t') :: t2 :: toks)
      by (rewrite <- app_assoc; reflexivity).
    etransitivity;
      [apply (IH t2 k (used + strlen (c :: t') + 1) (argv ++ [c :: t']) Ht2)
      | f_equal; [lia | exact Hres]].
    + rewrite length_app. rewrite Nat2Z.inj_add. simpl (List.length [_]).
      lia.
    + lia.
    + lia.
Qed.

(** X20: when a line holds [argvsz - 1] arguments that fit the buffer, a
    space and then one more character that is not white space, the line
    is refused with -EINVAL, whatever follows: the argument vector holds
    one argument less than its size. *)
Theorem parseArgLine_too_many (t : cstring) (toks : list cstring)
  (c : ascii) (rest : cstring) :
  token_ok t -> Forall token_ok toks ->
  Z.of_nat (List.length (t :: toks)) = argvsz - 1 ->
  args_size (t :: toks) <= bufsz ->
  isspace c = false ->
  fst (sysgen_parseArgLine (join space (t :: toks) ++ space :: c :: rest)
         bufsz argvsz) = - EINVAL.
Proof.
  intros Ht Htoks Hn Hfit Hc. unfold sysgen_parseArgLine.
  set (line := join space (t :: toks) ++ space :: c :: rest).
  pose proof (length_join (t :: toks) (Forall_cons _ Ht Htoks)) as Hl.
  assert (A : forall L n r a : nat,
             (2 * S n <= L + 1)%nat ->
             exists k, (S (L + S (S r) + a) = S (2 * n) + S (S k))%nat).
  { intros L n r a HL. exists (L + r + a - 2 * n)%nat. lia. }
  assert (Hf : exists k, parseArgLine_fuel line argvsz
                         = (S (2 * List.length toks) + S (S k))%nat).
  { unfold parseArgLine_fuel, line. rewrite length_app.
    apply (A _ _ (List.length rest) _ Hl). }
  destruct Hf as [k ->]. unfold line.
  rewrite (parseArgLine_loop_tokens (space :: c :: rest) toks
             ltac:(right; eexists _, _; split; reflexivity) Htoks t (S (S k)) 0 []
             Ht ltac:(simpl List.length in *; lia) ltac:(lia) ltac:(lia)).
  cbn [parseArgLine_loop]. change (isspace space) with true.
  change (isblank space) with true. cbv iota. rewrite Hc.
  destruct (Z.geb_spec (Z.of_nat (List.length ([] ++ t :: toks)) + 1) argvsz)
    as [| Hlt]; [reflexivity |].
  simpl app in Hlt. lia.
Qed.

(** X21: a line that begins with [bufsz] or more graphic characters in a
    row is refused with -ENOMEM: an argument and its terminator must fit
    the buffer. *)
Theorem parseArgLine_too_long (t more : cstring) :
  Forall (fun c => isgraph c = true) t ->
  0 < bufsz <= Z.of_nat (List.length t) -> 1 < argvsz ->
  fst (sysgen_parseArgLine (t ++ more) bufsz argvsz) = - ENOMEM.
Proof.
  intros Ht [Hb Hlen] Ha. unfold sysgen_parseArgLine, parseArgLine_fuel.
  destruct t as [| c t']; [simpl in Hlen; lia |].
  assert (Hc : isgraph c = true) by (inversion Ht; assumption).
  cbn [parseArgLine_loop app].
  rewrite (isgraph_not_isspace c Hc).
  destruct (Z.geb_spec (Z.of_nat (List.length (@nil cstring)) + 1) argvsz)
    as [| _]; [simpl in *; lia |].
  change (c :: t' ++ more) with ((c :: t') ++ more).
  pose proof (copy_graph_long (c :: t') more (Z.to_nat (bufsz - 0)) Ht
                ltac:(lia)) as Hfull.
  destruct (copy_graph ((c :: t') ++ more) (Z.to_nat (bufsz - 0)))
    as [tok rs].
  simpl fst in Hfull.
  destruct (Z.geb_spec (0 + strlen tok) bufsz) as [| Hlt]; [reflexivity |].
  unfold strlen in Hlt. rewrite Hfull in Hlt. lia.
Qed.

End Limits.

(** ** Two scripts in a row *)

Lemma getlines_app (f f2 : list ascii) :
  forall cur,
    getlines cur ((f ++ [newline]) ++ f2) =
    getlines cur (f ++ [newline]) ++ getlines [] f2.
Proof.
  induction f as [| c r IH]; intros cur; simpl.
  - reflexivity.
  - destruct (code c =? 10); [| apply IH].
    simpl. f_equal. apply IH.
Qed.

Section TwoScripts.

Variable H : syspage_h.

Lemma script_loop_app (l1 l2 : list (list ascii)) :
  Forall (fun line => until_nul line <> []) l1 ->
  forall g,
    script_loop H (l1 ++ l2) g =
    (let '(r, g1) := script_loop H l1 g in
     if r <? 0 then (r, g1) else script_loop H l2 g1).
Proof.
  induction 1 as [| line rest Hline _ IH]; intros g.
  - reflexivity.
  - change ((line :: rest) ++ l2) with (line :: rest ++ l2).
    rewrite !script_loop_cons by assumption.
    destruct (sysgen_parseArgLine _ _ _) as [argc argv].
    destruct (argc =? 0); [apply IH |].
    destruct (argc <? 0) eqn:En; [rewrite En; reflexivity |].
    destruct (find_cmd H argv) as [cmd |]; [| apply IH].
    destruct (snd cmd argv g) as [ret g'].
    destruct (ret <? 0) eqn:Er; [rewrite Er; reflexivity | apply IH].
Qed.

(** X13: when the preinit script is empty or ends with a newline and none
    of its lines starts with a zero byte, processing the preinit script
    and then the user script, as [main] does, gives the result and the
    state of processing the two files one after the other as one script. *)
Theorem scripts_are_concatenation (f1 f2 : list ascii) (g : sysgen_common) :
  f1 = [] \/ (exists f, f1 = f ++ [newline]) ->
  Forall (fun line => until_nul line <> []) (getlines [] f1) ->
  sysgen_scripts H (Some f1) (Some f2) g =
  sysgen_parseScript H (Some (f1 ++ f2)) g.
Proof.
  intros Hend Hlines. unfold sysgen_scripts, sysgen_parseScript.
  assert (E : getlines [] (f1 ++ f2) = getlines [] f1 ++ getlines [] f2).
  { destruct Hend as [-> | [f ->]]; [reflexivity | apply getlines_app]. }
  rewrite E, (script_loop_app _ _ Hlines).
  destruct (script_loop H (getlines [] f1) g) as [r1 g1]. reflexivity.
Qed.

End TwoScripts.

(** ** The image size and the arena *)

Lemma digit_val_nonneg (c : ascii) (d : Z) : digit_val c = Some d -> 0 <= d.
Proof.
  unfold digit_val. intros E.
  repeat match type of E with
         | (if ?b then _ else _) = _ => destruct b eqn:?
         end; try discriminate; injection E as <-;
    match goal with
    | Hb : (_ && _) = true |- _ =>
        apply andb_true_iff in Hb; destruct Hb as [Hb _];
        apply Z.leb_le in Hb; lia
    end.
Qed.

Lemma scan_digits_nonneg (base : Z) (s : cstring) :
  forall acc v rest,
    0 <= base -> (forall a, acc = Some a -> 0 <= a) ->
    scan_digits base acc s = (Some v, rest) -> 0 <= v.
Proof.
  induction s as [| c r IH]; intros acc v rest Hb Hacc E; simpl in E.
  - injection E as -> _. apply Hacc. reflexivity.
  - destruct (digit_val c) as [d |] eqn:Ed.
    + pose proof (digit_val_nonneg c d Ed) as Hd.
      destruct (d <? base).
      * eapply IH; [exact Hb | | exact E].
        intros a Ha. injection Ha as <-.
        destruct acc as [a0 |]; [| assumption].
        specialize (Hacc a0 eq_refl). nia.
      * injection E as -> _. apply Hacc. reflexivity.
    + injection E as -> _. apply Hacc. reflexivity.
Qed.

Lemma strtoul_number_nonneg (s2 rest : cstring) (v : Z) :
  strtoul_number s2 = inl (v, rest) -> 0 <= v.
Proof.
  unfold strtoul_number.
  assert (N : forall a : Z, @None Z = Some a -> 0 <= a) by (intros; discriminate).
  destruct s2 as [| z [| x r]].
  - simpl. discriminate.
  - destruct (scan_digits 10 None [z]) as [[w |] rs] eqn:E; [| discriminate].
    intros E'. injection E' as <- _. eapply scan_digits_nonneg; [| exact N | exact E]. lia.
  - destruct ((code z =? 48) && is_x x).
    + destruct (scan_digits 16 None r) as [[w |] rs] eqn:E; [| discriminate].
      intros E'. injection E' as <- _.
      eapply scan_digits_nonneg; [| exact N | exact E]. lia.
    + destruct (scan_digits _ None (z :: x :: r)) as [[w |] rs] eqn:E;
        [| discriminate].
      intros E'. injection E' as <- _.
      eapply scan_digits_nonneg; [| exact N | exact E].
      destruct (code z =? 48); lia.
Qed.

Lemma strtoul_range (s : cstring) : 0 <= fst (strtoul s) <= ULONG_MAX.
Proof.
  unfold strtoul.
  destruct (strtoul_sign (skip_space s)) as [neg s2].
  destruct (strtoul_number s2) as [[v rest] | [rest |]] eqn:En; simpl;
    try (unfold ULONG_MAX; lia).
  pose proof (strtoul_number_nonneg _ _ _ En) as Hv.
  destruct (Z.ltb_spec ULONG_MAX v); [unfold ULONG_MAX; lia |].
  destruct neg; [| lia].
  unfold wrap, ULONG_MAX.
  pose proof (Z.mod_pos_bound (- v) (2 ^ 64) ltac:(lia)). lia.
Qed.

Section ImageSize.

Variable H : syspage_h.

(** X14: a successful [alias] command raises the image size of the header
    to the end of the alias, address plus size as given in the script,
    when that is above the image size so far, and never lowers it; the
    alias record itself holds the address moved up by the load address.
    This is for an end that fits the image size field. *)
Theorem cmdAlias_image_size (g g' : sysgen_common) (cmd name a2 a3 : cstring) :
  sysgen_cmdAlias H [cmd; name; a2; a3] g = (0, g') ->
  0 <= addr_bits H ->
  wrap (addr_bits H) (fst (strtoul a2)) + fst (strtoul a3)
  < 2 ^ Z.min 64 (imgsz_bits H) ->
  hs_imgsz g' =
  Z.max (hs_imgsz g) (wrap (addr_bits H) (fst (strtoul a2)) + fst (strtoul a3))
  /\ option_map alias_addr (hd_error (aliases g')) =
     Some (wrap (addr_bits H)
             (wrap (addr_bits H) (fst (strtoul a2)) + pkernel g)).
Proof.
  intros E Hab Hfit.
  pose proof (strtoul_range a3) as [Hs _].
  assert (Ha : 0 <= wrap (addr_bits H) (fst (strtoul a2))).
  { unfold wrap. apply Z.mod_pos_bound. apply Z.pow_pos_nonneg; lia. }
  set (e := wrap (addr_bits H) (fst (strtoul a2)) + fst (strtoul a3)) in *.
  assert (H64 : e < 2 ^ 64).
  { eapply Z.lt_le_trans; [exact Hfit |]. apply Z.pow_le_mono_r; lia. }
  assert (Hi : 0 <= imgsz_bits H).
  { destruct (Z.lt_ge_cases (imgsz_bits H) 0) as [Hneg | ]; [| assumption].
    exfalso. rewrite Z.min_r in Hfit by lia.
    rewrite Z.pow_neg_r in Hfit by assumption. lia. }
  assert (HI : e < 2 ^ imgsz_bits H).
  { eapply Z.lt_le_trans; [exact Hfit |]. apply Z.pow_le_mono_r; lia. }
  revert E. unfold sysgen_cmdAlias.
  destruct (strtoul a2) as [v2 [| x2 e2]] eqn:E2; [| discriminate].
  destruct (strtoul a3) as [v3 [| x3 e3]] eqn:E3; [| discriminate].
  simpl fst in *. fold e.
  rewrite (wrap_small 64 e) by lia.
  destruct (Z.ltb_spec (hs_imgsz g) e) as [Hlt | Hge];
    intros E; injection E as <-; simpl.
  - rewrite (wrap_small (imgsz_bits H) e) by lia.
    split; [lia | reflexivity].
  - split; [lia | reflexivity].
Qed.

(** X15: two allocations in a row, in a state with room for both, return
    two addresses that are not null, the second region beginning at or
    after the end of the first, and both regions lying between the
    address of the start of the buffer and the address of its end. *)
Theorem allocations_do_not_overlap (sz1 sz2 : Z) (g : sysgen_common) :
  room H g -> 0 <= sz1 -> 0 <= sz2 ->
  align8 (align8 (syspage_size g + sz1) + sz2) < maxsz g ->
  let r1 := sysgen_buffAlloc H sz1 g in
  let r2 := sysgen_buffAlloc H sz2 (snd r1) in
  fst r1 <> 0 /\ fst r2 <> 0 /\
  pkernel g + offs g <= fst r1 /\
  fst r1 + sz1 <= fst r2 /\
  fst r2 + sz2 <= pkernel g + offs g + maxsz g.
Proof.
  intros Hroom H1 H2 Hfit r1 r2. subst r1 r2.
  pose proof (align8_bounds (syspage_size g + sz1)) as B1.
  pose proof (align8_bounds (align8 (syspage_size g + sz1) + sz2)) as B2.
  destruct (buffAlloc_room H sz1 g Hroom H1 ltac:(lia)) as (E1 & N1 & R1).
  rewrite E1. simpl snd. simpl fst.
  destruct (buffAlloc_room H sz2 _ R1 H2 ltac:(simpl; lia)) as (E2 & N2 & _).
  rewrite E2. simpl in *.
  destruct Hroom as (Hpos & _).
  repeat split; try assumption; lia.
Qed.

End ImageSize.

(** ** Integers before a separator *)

Lemma scan_digits_app (base : Z) (d : cstring) (c : ascii) (b : cstring) :
  digit_val c = None ->
  forall acc r,
    scan_digits base acc d = (r, []) ->
    scan_digits base acc (d ++ c :: b) = (r, c :: b).
Proof.
  intros Hc. induction d as [| x d IH]; intros acc r E; simpl in *.
  - injection E as <-. rewrite Hc. reflexivity.
  - destruct (digit_val x) as [dv |]; [| discriminate].
    destruct (dv <? base); [apply IH; assumption | discriminate].
Qed.

Lemma skip_space_app (a t : cstring) :
  skip_space a <> [] -> skip_space (a ++ t) = skip_space a ++ t.
Proof.
  induction a as [| c r IH]; simpl; intros Hne; [contradiction |].
  destruct (isspace c); [apply IH; assumption | reflexivity].
Qed.

Lemma strtoul_sign_app (s1 t : cstring) :
  s1 <> [] ->
  strtoul_sign (s1 ++ t) = (fst (strtoul_sign s1), snd (strtoul_sign s1) ++ t).
Proof.
  destruct s1 as [| c r]; [contradiction |]. intros _. simpl.
  destruct (code c =? 45); [reflexivity |].
  destruct (code c =? 43); reflexivity.
Qed.

Lemma digit_val_none_not_x (c : ascii) : digit_val c = None -> is_x c = false.
Proof.
  unfold digit_val, is_x. intros E.
  destruct (Z.eqb_spec (code c) 120) as [E1 | _];
    [rewrite E1 in E; discriminate E |].
  destruct (Z.eqb_spec (code c) 88) as [E2 | _];
    [rewrite E2 in E; discriminate E | reflexivity].
Qed.

Lemma strtoul_number_app (s2 : cstring) (v : Z) (c : ascii) (b : cstring) :
  digit_val c = None ->
  strtoul_number s2 = inl (v, []) ->
  strtoul_number (s2 ++ c :: b) = inl (v, c :: b).
Proof.
  intros Hc. unfold strtoul_number at 1.
  destruct s2 as [| z [| x r]].
  - simpl. discriminate.
  - destruct (scan_digits 10 None [z]) as [[w |] rs] eqn:E; [| discriminate].
    intros E'. injection E' as <- ->.
    simpl app. unfold strtoul_number.
    rewrite (digit_val_none_not_x c Hc), andb_false_r.
    simpl in E. destruct (digit_val z) as [dz |] eqn:Ez; [| discriminate].
    destruct (Z.ltb_spec dz 10) as [Hlt |]; [| discriminate].
    injection E as <-.
    assert (Hb : (dz <? (if code z =? 48 then 8 else 10)) = true).
    { apply Z.ltb_lt. destruct (Z.eqb_spec (code z) 48) as [E48 |]; [| lia].
      unfold digit_val in Ez. rewrite E48 in Ez. simpl in Ez.
      injection Ez as <-. lia. }
    simpl. rewrite Ez, Hb, Hc. reflexivity.
  - change ((z :: x :: r) ++ c :: b) with (z :: x :: (r ++ c :: b)).
    unfold strtoul_number.
    destruct ((code z =? 48) && is_x x) eqn:Ex.
    + destruct (scan_digits 16 None r) as [[w |] rs] eqn:E; [| discriminate].
      intros E'. injection E' as <- ->.
      rewrite (scan_digits_app 16 r c b Hc _ _ E). reflexivity.
    + destruct (scan_digits _ None (z :: x :: r)) as [[w |] rs] eqn:E;
        [| discriminate].
      intros E'. injection E' as <- ->.
      change (z :: x :: r ++ c :: b) with ((z :: x :: r) ++ c :: b).
      rewrite (scan_digits_app _ (z :: x :: r) c b Hc _ _ E).
      reflexivity.
Qed.

(** An integer followed by a character that is no digit in any base is
    read up to that character, with the value it has on its own. *)
Lemma strtoul_app (a : cstring) (c : ascii) (b : cstring) :
  integer_token a -> digit_val c = None ->
  strtoul (a ++ c :: b) = (fst (strtoul a), c :: b).
Proof.
  intros [Hne Hend] Hc. unfold strtoul in Hend |- *.
  destruct (strtoul_sign (skip_space a)) as [neg s2] eqn:Es.
  destruct (strtoul_number s2) as [[v rest] | [rest |]] eqn:En; simpl in Hend.
  - subst rest.
    assert (Hs2 : s2 <> []) by (intros ->; discriminate En).
    assert (Hs1 : skip_space a <> []).
    { intros E0. rewrite E0 in Es. injection Es as _ <-. contradiction. }
    rewrite skip_space_app by assumption.
    rewrite strtoul_sign_app by assumption. rewrite Es. simpl fst. simpl snd.
    rewrite (strtoul_number_app s2 v c b Hc En). reflexivity.
  - destruct (strtoul_number_x _ _ En) as (x & r & -> & _). discriminate.
  - contradiction.
Qed.

Section ConsoleIntegers.

Variable H : syspage_h.

(** X16: for all integers [a] and [b], as [strtoul] reads them, the
    command [console a.b] succeeds and sets the console field to the
    value of [b], cut to [unsigned int] and to the field; nothing else
    changes and the value of [a] plays no part. *)
Theorem console_sets_minor (g : sysgen_common) (cmd a b : cstring) :
  integer_token a -> integer_token b ->
  sysgen_cmdConsole H [cmd; a ++ "."%char :: b] g =
  (0, set_console (wrap (console_bits H) (wrap 32 (fst (strtoul b)))) g).
Proof.
  intros Ha [_ Hb]. unfold sysgen_cmdConsole.
  rewrite (strtoul_app a "."%char b Ha eq_refl). cbn [snd].
  change (Ascii.eqb "." ".") with true. cbv iota.
  destruct (strtoul b) as [v e]. simpl in Hb. subst e. reflexivity.
Qed.

(** X17: for all integers [p], [o] and [s], as [strtoul] reads them, the
    option value [p:o:s] is accepted and gives the load address [p] cut
    to [addr_t], the offset [o] as an [off_t] and the capacity [s]. *)
Theorem opt_s_reads_three_integers (p o s : cstring) :
  integer_token p -> integer_token o -> integer_token s ->
  sysgen_opt_s H (p ++ ":"%char :: o ++ ":"%char :: s) =
  Some (wrap (addr_bits H) (fst (strtoul p)), to_off_t (fst (strtoul o)),
        fst (strtoul s)).
Proof.
  intros Hp Ho [_ Hs]. unfold sysgen_opt_s.
  rewrite (strtoul_app p ":"%char _ Hp eq_refl).
  change (Ascii.eqb ":" ":") with true. cbv iota.
  rewrite (strtoul_app o ":"%char _ Ho eq_refl).
  change (Ascii.eqb ":" ":") with true. cbv iota.
  destruct (strtoul s) as [v e]. simpl in Hs. subst e. reflexivity.
Qed.

End ConsoleIntegers.

(** ** The overlap test on proper intervals *)

(** X18: when the new interval and the intervals of all maps are not
    empty, [sysgen_mapOverlapping] answers 0 exactly when the new interval
    shares no point with the interval of any map and the new name is the
    name of none; otherwise it answers -1. *)
Theorem mapOverlapping_exact (name : cstring) (s e : Z) (g : sysgen_common) :
  s < e -> Forall map_proper (maps g) ->
  (sysgen_mapOverlapping name s e g = 0 \/
   sysgen_mapOverlapping name s e g = -1) /\
  (sysgen_mapOverlapping name s e g = 0 <->
   forall m, In m (maps g) ->
             ~ intersects s e (map_start m) (map_end m) /\ name <> map_name m).
Proof.
  intros Hse Hall. unfold sysgen_mapOverlapping.
  destruct (existsb (map_clash name s e) (maps g)) eqn:Ex.
  - split; [right; reflexivity |]. split; [discriminate |].
    intros Hno. exfalso. apply existsb_exists in Ex.
    destruct Ex as (m & Hin & Hc).
    destruct (Hno m Hin) as [Hi Hn].
    rewrite Forall_forall in Hall. specialize (Hall m Hin).
    unfold map_proper in Hall. unfold map_clash in Hc.
    apply orb_true_iff in Hc. destruct Hc as [Hc | Hc].
    + apply andb_true_iff in Hc. destruct Hc as [H1 H2].
      apply Z.ltb_lt in H1. rewrite Z.gtb_ltb in H2. apply Z.ltb_lt in H2.
      apply Hi. exists (Z.max s (map_start m)). lia.
    + apply strcmp0_true in Hc. contradiction.
  - split; [left; reflexivity |]. split; [| reflexivity].
    intros _ m Hin. apply existsb_false_Forall in Ex.
    rewrite Forall_forall in Ex. specialize (Ex m Hin).
    split.
    + intros Hi. rewrite (clash_of_intersects name s e m (or_introl Hi)) in Ex.
      discriminate.
    + intros Hn. rewrite (clash_of_intersects name s e m (or_intror Hn)) in Ex.
      discriminate.
Qed.

(** ** Programs without an alias *)

Section NoAlias.

Variable H : syspage_h.

Lemma appAdd_no_alias (name imaps dmaps appArgv : cstring) (flags : Z)
  (g : sysgen_common) :
  sysgen_aliasFind name g = None ->
  sysgen_appAdd H name imaps dmaps appArgv flags g = (-1, g).
Proof. intros E. unfold sysgen_appAdd. rewrite E. reflexivity. Qed.

(** X19: an [app] command none of whose arguments names an alias, by its
    part before the first semicolon, fails with -1 and leaves the whole
    state, the arena mark included, as it was; so does every [app]
    command as long as no alias is defined. *)
Theorem app_without_alias (argv : list cstring) (g : sysgen_common) :
  (forall tok, In tok argv ->
               sysgen_aliasFind (before_semicolon tok) g = None) ->
  sysgen_cmdApp H argv g = (-1, g).
Proof.
  intros Hno. unfold sysgen_cmdApp.
  destruct ((Z.of_nat (List.length argv) <? 5) || (Z.of_nat (List.length argv) >? 6))
    eqn:Elen; [reflexivity |].
  apply orb_false_iff in Elen. destruct Elen as [E5 E6].
  apply Z.ltb_ge in E5. rewrite Z.gtb_ltb in E6. apply Z.ltb_ge in E6.
  destruct argv as [| cmd [| dev [| a2 [| a3 [| a4 [| a5 [| a6 rest]]]]]]];
    simpl List.length in E5, E6; try lia.
  - assert (H2 : sysgen_aliasFind (before_semicolon a2) g = None)
      by (apply Hno; simpl; tauto).
    simpl nth. simpl List.length.
    destruct a2 as [| c0 r0].
    + simpl. apply appAdd_no_alias. exact H2.
    + destruct (Ascii.eqb c0 "-").
      * destruct r0 as [| c1 [| c2 r1]]; try reflexivity.
        destruct (Z.lor (code c1) 32 =? 120); reflexivity.
      * remember (before_semicolon (c0 :: r0)) as nm eqn:Enm.
        simpl. apply appAdd_no_alias. exact H2.
  - assert (H3 : sysgen_aliasFind (before_semicolon a3) g = None)
      by (apply Hno; simpl; tauto).
    simpl nth. simpl List.length.
    destruct a2 as [| c0 r0]; [reflexivity |].
    destruct (Ascii.eqb c0 "-"); [| reflexivity].
    destruct r0 as [| c1 [| c2 r1]]; try reflexivity.
    destruct (Z.lor (code c1) 32 =? 120); [| reflexivity].
    remember (before_semicolon a3) as nm eqn:Enm.
    simpl. apply appAdd_no_alias. exact H3.
Qed.

End NoAlias.

(** ** The room the maps take *)

Section Count.

Variable H : syspage_h.

Lemma buffAlloc_grow (sz : Z) (g : sysgen_common) :
  3 <= size_bits H -> maxsz g <= 2 ^ size_bits H ->
  syspage_size g mod 8 = 0 -> 0 <= syspage_size g < 2 ^ 62 ->
  0 <= sz < 2 ^ 62 ->
  sysgen_buffAlloc H sz g = (0, g) \/
  exists v, snd (sysgen_buffAlloc H sz g) = set_size v g /\
            v mod 8 = 0 /\ syspage_size g + sz <= v < maxsz g.
Proof.
  intros Hb Hmx Hm Hs Hsz.
  assert (E : ALIGN_ADDR (wrap 64 (syspage_size g + sz)) sizeof_long_long
              = align8 (syspage_size g + sz)).
  { rewrite wrap_small by lia. apply ALIGN_ADDR_8_small; lia. }
  destruct (Z_lt_le_dec (align8 (syspage_size g + sz)) (maxsz g)) as [Hlt | Hge].
  - right. rewrite buffAlloc_pass by (rewrite E; assumption). simpl.
    rewrite E. pose proof (align8_bounds (syspage_size g + sz)) as Hbd.
    exists (align8 (syspage_size g + sz)).
    rewrite wrap_small by lia.
    split; [reflexivity |]. split; [apply align8_mod | lia].
  - left. apply buffAlloc_fail. rewrite E. assumption.
Qed.

Lemma pow_size_le (mx : Z) : no_wrap H mx -> mx <= 2 ^ 62.
Proof.
  intros ((Hb & Hb') & Hmx & _).
  pose proof (Z.pow_le_mono_r 2 (size_bits H) 62 ltac:(lia) Hb'). lia.
Qed.

Lemma buffAlloc_adv (sz : Z) (g : sysgen_common) :
  no_wrap H (maxsz g) ->
  syspage_size g mod 8 = 0 -> 0 <= syspage_size g < 2 ^ 62 ->
  0 <= sz < 2 ^ 62 ->
  exists v, snd (sysgen_buffAlloc H sz g) = set_size v g /\
            v mod 8 = 0 /\ syspage_size g <= v < 2 ^ 62 /\
            (v = syspage_size g \/ v < maxsz g) /\
            (fst (sysgen_buffAlloc H sz g) <> 0 ->
             syspage_size g + sz <= v /\ v < maxsz g).
Proof.
  intros Hnw Hm Hs Hsz. pose proof (pow_size_le _ Hnw) as Hmx.
  destruct Hnw as ((Hb & _) & Hfit & _).
  destruct (buffAlloc_grow sz g Hb Hfit Hm Hs Hsz) as [E | (v & E & Hv & Hlo)].
  - exists (syspage_size g). rewrite E. simpl.
    split; [symmetry; apply set_size_same |].
    split; [assumption |]. split; [lia |]. split; [left; reflexivity |].
    intros Hne. contradiction Hne. reflexivity.
  - exists v. split; [assumption |]. split; [assumption |].
    split; [lia |]. split; [right; lia |]. intros _. lia.
Qed.

Lemma maps_paid_set_size (v : Z) (g : sysgen_common) :
  maps_paid g -> v mod 8 = 0 -> syspage_size g <= v < 2 ^ 62 ->
  v = syspage_size g \/ v < maxsz g ->
  maps_paid (set_size v g).
Proof.
  intros (Hm & Hs & Hc & Hlt) Hv Hr Hv'. unfold maps_paid.
  cbn [set_size syspage_size maps maxsz].
  split; [assumption |]. split; [lia |]. split; [lia |].
  intros Hne. specialize (Hlt Hne). lia.
Qed.

Lemma mapAdd_paid (name : cstring) (s e a : Z) (g : sysgen_common) :
  no_wrap H (maxsz g) -> maps_paid g -> strlen name <= SIZE_CMD_ARG_LINE ->
  maps_paid (snd (sysgen_mapAdd H name s e a g)).
Proof.
  intros Hnw Hp Hlen. pose proof Hp as (Hm & Hs & Hc & Hlt).
  pose proof Hnw as (_ & _ & Hsm & _).
  unfold sysgen_mapAdd.
  destruct (buffAlloc_adv (sizeof_syspage_map_t H) g Hnw Hm Hs ltac:(lia))
    as (v1 & E1 & Hv1 & Hr1 & Hc1 & Hok1).
  destruct (sysgen_buffAlloc H (sizeof_syspage_map_t H) g) as [ptr g1].
  simpl in E1, Hok1. subst g1.
  destruct (Z.eqb_spec ptr 0) as [Hz | Hnz]; simpl.
  { apply maps_paid_set_size; assumption. }
  specialize (Hok1 Hnz).
  assert (Hl : 0 <= strlen name + 1 < 2 ^ 62).
  { unfold strlen, SIZE_CMD_ARG_LINE in *. lia. }
  destruct (buffAlloc_adv (strlen name + 1) (set_size v1 g) Hnw Hv1
              ltac:(simpl; lia) Hl)
    as (v2 & E2 & Hv2 & Hr2 & Hc2 & _).
  destruct (sysgen_buffAlloc H (strlen name + 1) (set_size v1 g)) as [nm g2].
  simpl in E2, Hr2, Hc2. subst g2.
  assert (P2 : maps_paid (set_size v2 g)).
  { apply maps_paid_set_size; try assumption; lia. }
  destruct (Z.eqb_spec nm 0) as [Hz2 | Hnz2]; simpl; [exact P2 |].
  unfold maps_paid. cbn [set_maps set_size syspage_size maps maxsz].
  split; [assumption |]. split; [lia |].
  rewrite length_app. cbn [List.length]. rewrite Nat.add_1_r, Nat2Z.inj_succ.
  pose proof (Z.div_mod v1 8 ltac:(lia)) as D1.
  pose proof (Z.div_mod (syspage_size g) 8 ltac:(lia)) as D0.
  rewrite Hv1 in D1. rewrite Hm in D0.
  split; [lia |]. intros _. lia.
Qed.

Lemma buffAlloc_paid (sz : Z) (g : sysgen_common) :
  no_wrap H (maxsz g) -> maps_paid g -> 0 <= sz < 2 ^ 62 ->
  maps_paid (snd (sysgen_buffAlloc H sz g)) /\
  maxsz (snd (sysgen_buffAlloc H sz g)) = maxsz g.
Proof.
  intros Hnw Hp Hsz. pose proof Hp as (Hm & Hs & _).
  destruct (buffAlloc_adv sz g Hnw Hm Hs Hsz) as (v & E & Hv & Hr & Hc & _).
  rewrite E. split; [apply maps_paid_set_size; assumption | reflexivity].
Qed.

Lemma mapsParse_count (s : cstring) (sep : ascii) :
  1 <= snd (sysgen_mapsParse s sep) <= strlen s + 1.
Proof.
  unfold strlen. induction s as [| c r IH]; [simpl; lia |].
  cbn [sysgen_mapsParse]. destruct (sysgen_mapsParse r sep) as [buf nb].
  cbn [snd] in IH. cbn [List.length]. rewrite Nat2Z.inj_succ.
  destruct (Ascii.eqb c sep); cbn [snd]; lia.
Qed.

Lemma appAdd_paid (name imaps dmaps appArgv : cstring) (flags : Z)
  (g : sysgen_common) :
  no_wrap H (maxsz g) -> maps_paid g ->
  strlen imaps <= SIZE_CMD_ARG_LINE -> strlen dmaps <= SIZE_CMD_ARG_LINE ->
  strlen appArgv <= SIZE_CMD_ARG_LINE ->
  maps_paid (snd (sysgen_appAdd H name imaps dmaps appArgv flags g)).
Proof.
  intros Hnw Hp Hi Hd Ha. pose proof Hnw as (_ & _ & _ & Hsp).
  unfold sysgen_appAdd.
  destruct (sysgen_aliasFind name g) as [alias |]; [| exact Hp].
  pose proof (mapsParse_count imaps ";") as Ci.
  pose proof (mapsParse_count dmaps ";") as Cd.
  destruct (sysgen_mapsParse imaps ";") as [ibuf imapSz].
  destruct (sysgen_mapsParse dmaps ";") as [dbuf dmapSz].
  cbn [snd] in Ci, Cd.
  assert (Hx : 0 <= (if Z.land flags flagSyspageExec =? 0 then 0 else 1) <= 1)
    by (destruct (Z.land flags flagSyspageExec =? 0); lia).
  assert (Hlen : 0 <= strlen appArgv)
    by (unfold strlen; lia).
  unfold SIZE_CMD_ARG_LINE in *.
  destruct (buffAlloc_paid (sizeof_syspage_prog_t H) g Hnw Hp Hsp) as [P1 M1].
  destruct (sysgen_buffAlloc H (sizeof_syspage_prog_t H) g) as [ptr g1].
  cbn [snd] in P1, M1.
  destruct (ptr =? 0); [exact P1 |].
  rewrite <- M1 in Hnw.
  destruct (buffAlloc_paid dmapSz g1 Hnw P1 ltac:(lia)) as [P2 M2].
  destruct (sysgen_buffAlloc H dmapSz g1) as [pd g2]. cbn [snd] in P2, M2.
  rewrite <- M2 in Hnw.
  destruct (buffAlloc_paid imapSz g2 Hnw P2 ltac:(lia)) as [P3 M3].
  destruct (sysgen_buffAlloc H imapSz g2) as [pi g3]. cbn [snd] in P3, M3.
  rewrite <- M3 in Hnw.
  destruct (buffAlloc_paid
              ((if Z.land flags flagSyspageExec =? 0 then 0 else 1)
               + strlen appArgv + 1) g3 Hnw P3 ltac:(lia)) as [P4 M4].
  destruct (sysgen_buffAlloc H _ g3) as [pa g4]. cbn [snd] in P4, M4.
  destruct ((pd =? 0) || (pi =? 0) || (pa =? 0)); [exact P4 |].
  destruct (sysgen_mapsAdd2Prog _ ibuf g4); [| exact P4].
  destruct (sysgen_mapsAdd2Prog _ dbuf g4); [| exact P4].
  exact P4.
Qed.

Lemma nth_short (argv : list cstring) (i : nat) :
  short_args argv -> strlen (nth i argv []) <= SIZE_CMD_ARG_LINE.
Proof.
  intros Hs. destruct (nth_in_or_default i argv []) as [Hin | ->].
  - unfold short_args in Hs. rewrite Forall_forall in Hs. apply Hs. assumption.
  - vm_compute. discriminate.
Qed.

Lemma cmd_paid (cmd : cmd_t) (argv : list cstring) (g : sysgen_common) :
  In cmd (cmds H) -> short_args argv ->
  no_wrap H (maxsz g) -> maps_paid g -> maps_paid (snd (snd cmd argv g)).
Proof.
  unfold cmds. simpl.
  intros [<- | [<- | [<- | [<- | []]]]] Hs Hnw Hp; cbn [snd].
  - destruct (cmdAlias_frame H argv g) as [[_ E] | [_ (a & i & E)]]; rewrite E;
      exact Hp.
  - destruct (cmdMap_cases H argv g)
      as [[_ E] | (c & name & a2 & a3 & a4 & attr & -> & _ & E)].
    + rewrite E. exact Hp.
    + rewrite E. apply mapAdd_paid; try assumption.
      apply (nth_short _ 1%nat Hs).
  - unfold sysgen_cmdApp.
    repeat break_match; cbn [snd]; try exact Hp;
      apply appAdd_paid; try assumption; apply nth_short; assumption.
  - destruct (cmdConsole_frame H argv g) as [[_ E] | [_ (v & E)]]; rewrite E;
      exact Hp.
Qed.

Lemma args_size_short (n : Z) (argv : list cstring) :
  args_size argv <= n -> Forall (fun a => strlen a <= n) argv.
Proof.
  induction argv as [| a l IH]; intros Hn; constructor.
  - pose proof (args_size_nonneg l). unfold args_size in *. simpl in Hn. lia.
  - apply IH. unfold args_size, strlen in *. simpl in Hn. lia.
Qed.

Lemma parseArgLine_short (lines : cstring) :
  0 <= fst (sysgen_parseArgLine lines SIZE_CMD_ARG_LINE SIZE_CMD_ARGV) ->
  short_args (snd (sysgen_parseArgLine lines SIZE_CMD_ARG_LINE SIZE_CMD_ARGV)).
Proof.
  destruct (parseArgLine_total lines SIZE_CMD_ARG_LINE SIZE_CMD_ARGV)
    as (r & E & ->).
  intros Hr. apply args_size_short.
  destruct (parseArgLine_loop_ok SIZE_CMD_ARG_LINE SIZE_CMD_ARGV _ _ _ _ r
              (Forall_nil _) eq_refl ltac:(vm_compute; discriminate)
              (or_introl eq_refl) E)
    as [[F | F] | (_ & _ & Hsz & _)];
    [rewrite F in Hr; vm_compute in Hr; contradiction Hr; reflexivity ..
    | exact Hsz].
Qed.

Lemma script_loop_preserves_short (P : sysgen_common -> Prop) :
  (forall cmd argv g, In cmd (cmds H) -> short_args argv -> P g ->
                      P (snd (snd cmd argv g))) ->
  forall lines g, P g -> P (snd (script_loop H lines g)).
Proof.
  intros Hcmd. induction lines as [| line rest IH]; intros g Hg; simpl;
    [assumption |].
  destruct (until_nul line) as [| c l]; [assumption |].
  pose proof (parseArgLine_short (c :: l)) as Hsh.
  destruct (sysgen_parseArgLine _ _ _) as [argc argv]. cbn [fst snd] in Hsh.
  destruct (Z.eqb_spec argc 0); [apply IH; assumption |].
  destruct (Z.ltb_spec argc 0); [assumption |].
  destruct (find_cmd H argv) as [cmd |] eqn:Ef; [| apply IH; assumption].
  apply find_some in Ef. destruct Ef as [Hin _].
  specialize (Hcmd cmd argv g Hin (Hsh ltac:(lia)) Hg).
  destruct (snd cmd argv g) as [ret g']. simpl in Hcmd.
  destruct (ret <? 0); [assumption | apply IH; assumption].
Qed.

Lemma parseScript_paid (file : option (list ascii)) (g : sysgen_common) :
  no_wrap H (maxsz g) -> maps_paid g ->
  maps_paid (snd (sysgen_parseScript H file g)).
Proof.
  intros Hnw Hp.
  enough (E : maxsz (snd (sysgen_parseScript H file g)) = maxsz g /\
              maps_paid (snd (sysgen_parseScript H file g))) by apply E.
  destruct file as [content |]; simpl; [| split; [reflexivity | assumption]].
  apply (script_loop_preserves_short
           (fun g' => maxsz g' = maxsz g /\ maps_paid g')).
  - intros cmd argv g' Hin Hs [Hmx Hp']. split.
    + rewrite <- Hmx. apply (cmd_grows H cmd argv g' Hin).
    + apply cmd_paid; try assumption. rewrite Hmx. assumption.
  - split; [reflexivity | assumption].
Qed.

Lemma init_paid (pk off mx : Z) :
  no_wrap H mx -> maps_paid (sysgen_init H pk off mx).
Proof.
  intros ((Hb & Hb') & _). unfold maps_paid, sysgen_init.
  cbn [syspage_size maps maxsz List.length].
  pose proof (Z.mod_pos_bound
                (ALIGN_ADDR (sizeof_syspage_t H) sizeof_long_long)
                (2 ^ size_bits H) ltac:(apply Z.pow_pos_nonneg; lia)) as Hw.
  pose proof (Z.pow_le_mono_r 2 (size_bits H) 62 ltac:(lia) Hb').
  fold (wrap (size_bits H) (ALIGN_ADDR (sizeof_syspage_t H) sizeof_long_long))
    in Hw.
  split; [rewrite wrap_mod8 by assumption; apply ALIGN_ADDR_8_mod |].
  split; [lia |]. split; [lia |]. intros Hne. contradiction Hne. reflexivity.
Qed.

Lemma scripts_reachable (pk off mx : Z) (preinit user : option (list ascii)) :
  reachable H pk off mx
    (snd (sysgen_scripts H preinit user (sysgen_init H pk off mx))).
Proof.
  unfold sysgen_scripts.
  pose proof (reach_script H pk off mx _ preinit (reach_init H pk off mx)) as R1.
  destruct (sysgen_parseScript H preinit (sysgen_init H pk off mx)) as [r1 g1].
  cbn [snd] in R1. destruct (r1 <? 0); [exact R1 |].
  apply reach_script. exact R1.
Qed.

(** X25: when neither the mark nor a size wraps around, every map the two
    scripts of [main] add has taken at least 8 bytes of the arena: 8 times
    the number of maps is at most the mark, which is below the capacity as
    soon as there is a map.  So with a capacity of at most 8 bytes for each
    value of the id field, every map has its position, counted from 0, as
    its id, however many maps the scripts add. *)
Theorem maps_take_room (pk off mx : Z) (preinit user : option (list ascii)) :
  no_wrap H mx ->
  let g := snd (sysgen_scripts H preinit user (sysgen_init H pk off mx)) in
  8 * Z.of_nat (List.length (maps g)) <= syspage_size g /\
  (maps g <> [] -> syspage_size g < mx) /\
  (mx <= 8 * 2 ^ id_bits H ->
   forall k m, nth_error (maps g) k = Some m -> map_id m = Z.of_nat k).
Proof.
  intros Hnw g.
  assert (Hp : maxsz g = mx /\ maps_paid g).
  { subst g. unfold sysgen_scripts.
    pose proof (init_paid pk off mx Hnw) as P0.
    pose proof (parseScript_paid preinit (sysgen_init H pk off mx) Hnw P0) as P1.
    pose proof (parseScript_grows H preinit (sysgen_init H pk off mx))
      as (_ & _ & _ & _ & _ & M1).
    destruct (sysgen_parseScript H preinit (sysgen_init H pk off mx))
      as [r1 g1].
    cbn [snd] in P1, M1. cbn [maxsz sysgen_init] in M1.
    destruct (r1 <? 0); cbn [snd]; [split; assumption |].
    pose proof (parseScript_grows H user g1) as (_ & _ & _ & _ & _ & M2).
    split; [congruence |].
    apply parseScript_paid; [rewrite M1 |]; assumption. }
  destruct Hp as [Hmx (_ & _ & Hc & Hlt)]. rewrite Hmx in Hlt.
  split; [exact Hc |]. split; [exact Hlt |].
  intros Hid k m Hk.
  destruct (reachable_maps_inv H pk off mx g
              (scripts_reachable pk off mx preinit user)) as [_ Hids].
  rewrite (Hids k m Hk). apply wrap_small.
  assert (Hkl : (k < List.length (maps g))%nat)
    by (apply nth_error_Some; congruence).
  assert (Hne : maps g <> []) by (intros E; rewrite E in Hkl; inversion Hkl).
  specialize (Hlt Hne). lia.
Qed.

End Count.

(** ** The further properties at concrete inputs *)

Ltac token_ok_tac :=
  repeat (constructor; [split; [discriminate | repeat constructor] |]);
  try constructor.


Lemma maps_list_resolution_witness :
  let ns := [cstr "ocram"; cstr "ocram"] in
  ns <> [] /\
  Forall (Forall (fun c => c <> ";"%char /\ code c <> 0)) ns /\
  sysgen_mapsAdd2Prog (Z.to_nat (snd (sysgen_mapsParse (join ";" ns) ";")))
    (fst (sysgen_mapsParse (join ";" ns) ";")) g_ocram = Some [0; 0].
Proof.
  intros ns.
  assert (H1 : ns <> []) by discriminate.
  assert (H2 : Forall (Forall (fun c => c <> ";"%char /\ code c <> 0)) ns).
  { repeat (constructor;
            [repeat (constructor; [split; [discriminate | vm_compute; discriminate] |]);
             constructor |]). constructor. }
  split; [exact H1 |]. split; [exact H2 |].
  destruct (maps_list_resolution ns g_ocram H1 H2) as (_ & ->).
  vm_compute. reflexivity.
Defined.







Lemma parseArgLine_ok_witness :
  0 <= 181 /\
  Forall token_ok
    (snd (sysgen_parseArgLine (cstr "map  ocram 0x0" ++ [newline]) 181 11)).
Proof.
  assert (Hb : 0 <= 181) by lia.
  split; [exact Hb |].
  destruct (parseArgLine_ok 181 11 (cstr "map  ocram 0x0" ++ [newline]) Hb)
    as [[Hf | Hf] | (_ & Hok & _)];
    [vm_compute in Hf; discriminate Hf | vm_compute in Hf; discriminate Hf
    | exact Hok].
Defined.

Lemma parseArgLine_join_witness :
  let toks := [cstr "alias"; cstr "app1"; cstr "0x1000"; cstr "0x200"] in
  Forall token_ok toks /\ ([newline] = [] \/ [newline] = [newline]) /\
  Z.of_nat (List.length toks) < 11 /\ args_size toks <= 181 /\
  sysgen_parseArgLine (cstr "alias app1 0x1000 0x200" ++ [newline]) 181 11
  = (4, toks).
Proof.
  intros toks.
  assert (H1 : Forall token_ok toks) by token_ok_tac.
  assert (H2 : [newline] = [] \/ [newline] = [newline]) by (right; reflexivity).
  assert (H3 : Z.of_nat (List.length toks) < 11) by (vm_compute; reflexivity).
  assert (H4 : args_size toks <= 181) by (vm_compute; discriminate).
  split; [exact H1 |]. split; [exact H2 |]. split; [exact H3 |].
  split; [exact H4 |].
  exact (parseArgLine_join 181 11 toks [newline] H1 H2 H3 H4).
Defined.

Lemma scripts_are_concatenation_witness :
  let f1 := script ["map ocram 0x0 0x10000 rwx"]%string in
  let f2 := script ["alias app1 0x1000 0x200";
                    "app flash0 app1 ocram ocram"]%string in
  (f1 = [] \/ exists f, f1 = f ++ [newline]) /\
  Forall (fun line => until_nul line <> []) (getlines [] f1) /\
  sysgen_scripts h32 (Some f1) (Some f2) g0 =
  sysgen_parseScript h32 (Some (f1 ++ f2)) g0.
Proof.
  intros f1 f2.
  assert (H1 : f1 = [] \/ exists f, f1 = f ++ [newline]).
  { right. exists (cstr "map ocram 0x0 0x10000 rwx"). vm_compute. reflexivity. }
  assert (H2 : Forall (fun line => until_nul line <> []) (getlines [] f1)).
  { let ls := eval vm_compute in (getlines [] f1) in
    change (getlines [] f1) with ls.
    constructor; [vm_compute; discriminate | constructor]. }
  split; [exact H1 |]. split; [exact H2 |].
  exact (scripts_are_concatenation h32 f1 f2 g0 H1 H2).
Defined.

Lemma cmdAlias_image_size_witness :
  let g' := snd (sysgen_cmdAlias h32
                   [cstr "alias"; cstr "app1"; cstr "0x1000"; cstr "0x200"] g0) in
  sysgen_cmdAlias h32 [cstr "alias"; cstr "app1"; cstr "0x1000"; cstr "0x200"] g0
  = (0, g') /\
  0 <= addr_bits h32 /\
  wrap (addr_bits h32) (fst (strtoul (cstr "0x1000"))) + fst (strtoul (cstr "0x200"))
  < 2 ^ Z.min 64 (imgsz_bits h32) /\
  hs_imgsz g' = Z.max (hs_imgsz g0) 4608.
Proof.
  intros g'.
  assert (H1 : sysgen_cmdAlias h32
                 [cstr "alias"; cstr "app1"; cstr "0x1000"; cstr "0x200"] g0
               = (0, g')) by (vm_compute; reflexivity).
  assert (H2 : 0 <= addr_bits h32) by (vm_compute; discriminate).
  assert (H3 : wrap (addr_bits h32) (fst (strtoul (cstr "0x1000")))
               + fst (strtoul (cstr "0x200")) < 2 ^ Z.min 64 (imgsz_bits h32))
    by (vm_compute; reflexivity).
  split; [exact H1 |]. split; [exact H2 |]. split; [exact H3 |].
  destruct (cmdAlias_image_size h32 g0 g' (cstr "alias") (cstr "app1")
              (cstr "0x1000") (cstr "0x200") H1 H2 H3) as (Hi & _).
  rewrite Hi. vm_compute. reflexivity.
Defined.

Lemma g0_room : room h32 g0.
Proof. unfold room. zcompute. Defined.

Lemma allocations_do_not_overlap_witness :
  room h32 g0 /\ 0 <= 29 /\ 0 <= 6 /\
  align8 (align8 (syspage_size g0 + 29) + 6) < maxsz g0 /\
  fst (sysgen_buffAlloc h32 29 g0) + 29
  <= fst (sysgen_buffAlloc h32 6 (snd (sysgen_buffAlloc h32 29 g0))).
Proof.
  assert (H1 : 0 <= 29) by lia.
  assert (H2 : 0 <= 6) by lia.
  assert (H3 : align8 (align8 (syspage_size g0 + 29) + 6) < maxsz g0)
    by (vm_compute; reflexivity).
  split; [exact g0_room |]. split; [exact H1 |]. split; [exact H2 |].
  split; [exact H3 |].
  destruct (allocations_do_not_overlap h32 29 6 g0 g0_room H1 H2 H3)
    as (_ & _ & _ & Hle & _).
  exact Hle.
Defined.

Lemma integer_1 : integer_token (cstr "1").
Proof. split; [discriminate | vm_compute; reflexivity]. Defined.

Lemma integer_2 : integer_token (cstr "2").
Proof. split; [discriminate | vm_compute; reflexivity]. Defined.

Lemma integer_0x400 : integer_token (cstr "0x400").
Proof. split; [discriminate | vm_compute; reflexivity]. Defined.

Lemma console_sets_minor_witness :
  integer_token (cstr "1") /\ integer_token (cstr "2") /\
  console (snd (sysgen_cmdConsole h32
                  [cstr "console"; cstr "1" ++ "."%char :: cstr "2"] g0)) = 2.
Proof.
  split; [exact integer_1 |]. split; [exact integer_2 |].
  rewrite (console_sets_minor h32 g0 (cstr "console") (cstr "1") (cstr "2")
             integer_1 integer_2).
  vm_compute. reflexivity.
Defined.

Lemma opt_s_reads_three_integers_witness :
  integer_token (cstr "1") /\ integer_token (cstr "0x400") /\
  integer_token (cstr "2") /\
  sysgen_opt_s h32
    (cstr "1" ++ ":"%char :: cstr "0x400" ++ ":"%char :: cstr "2")
  = Some (1, 1024, 2).
Proof.
  split; [exact integer_1 |]. split; [exact integer_0x400 |].
  split; [exact integer_2 |].
  rewrite (opt_s_reads_three_integers h32 (cstr "1") (cstr "0x400") (cstr "2")
             integer_1 integer_0x400 integer_2).
  vm_compute. reflexivity.
Defined.

Lemma mapOverlapping_exact_witness :
  131072 < 196608 /\ Forall map_proper (maps g_ocram) /\
  sysgen_mapOverlapping (cstr "dtcm") 131072 196608 g_ocram = 0.
Proof.
  assert (H1 : 131072 < 196608) by lia.
  assert (H2 : Forall map_proper (maps g_ocram)).
  { rewrite g_ocram_maps. constructor; [| constructor].
    unfold map_proper. vm_compute. reflexivity. }
  split; [exact H1 |]. split; [exact H2 |].
  destruct (mapOverlapping_exact (cstr "dtcm") 131072 196608 g_ocram H1 H2)
    as (_ & Hiff).
  apply Hiff. intros m Hin. rewrite g_ocram_maps in Hin.
  destruct Hin as [<- | []]. split.
  - intros [x Hx]. cbn in Hx. lia.
  - discriminate.
Defined.

Lemma app_without_alias_witness :
  (forall tok, In tok argv_app_x ->
               sysgen_aliasFind (before_semicolon tok) g_ocram = None) /\
  sysgen_cmdApp h32 argv_app_x g_ocram = (-1, g_ocram).
Proof.
  assert (Hno : forall tok, In tok argv_app_x ->
                  sysgen_aliasFind (before_semicolon tok) g_ocram = None).
  { intros tok Hin. unfold sysgen_aliasFind.
    replace (aliases g_ocram) with (@nil phfs_alias_t)
      by (vm_compute; reflexivity).
    reflexivity. }
  split; [exact Hno |].
  exact (app_without_alias h32 argv_app_x g_ocram Hno).
Defined.


Lemma buffAlloc_aligned_witness :
  3 <= sysptr_bits h32 /\ syspage_size g0 mod 8 = 0 /\
  ALIGN_ADDR (wrap 64 (syspage_size g0 + 29)) sizeof_long_long < maxsz g0 /\
  (fst (sysgen_buffAlloc h32 29 g0) - (pkernel g0 + offs g0)) mod 8 = 0.
Proof.
  assert (H1 : 3 <= sysptr_bits h32) by (vm_compute; discriminate).
  assert (H2 : syspage_size g0 mod 8 = 0) by (vm_compute; reflexivity).
  assert (H3 : ALIGN_ADDR (wrap 64 (syspage_size g0 + 29)) sizeof_long_long
               < maxsz g0) by (vm_compute; reflexivity).
  split; [exact H1 |]. split; [exact H2 |]. split; [exact H3 |].
  exact (buffAlloc_aligned h32 29 g0 H1 H2 H3).
Defined.

Lemma parseArgLine_too_many_witness :
  let t := cstr "a" in
  let toks := [cstr "b"; cstr "c"; cstr "d"; cstr "e"; cstr "f"; cstr "g";
               cstr "h"; cstr "i"; cstr "j"] in
  token_ok t /\ Forall token_ok toks /\
  Z.of_nat (List.length (t :: toks)) = 11 - 1 /\
  args_size (t :: toks) <= 181 /\ isspace "k"%char = false /\
  fst (sysgen_parseArgLine
         (join space (t :: toks) ++ space :: "k"%char :: [newline]) 181 11)
  = - EINVAL.
Proof.
  intros t toks.
  assert (H1 : token_ok t) by (split; [discriminate | repeat constructor]).
  assert (H2 : Forall token_ok toks) by token_ok_tac.
  assert (H3 : Z.of_nat (List.length (t :: toks)) = 11 - 1)
    by (vm_compute; reflexivity).
  assert (H4 : args_size (t :: toks) <= 181) by (vm_compute; discriminate).
  assert (H5 : isspace "k"%char = false) by reflexivity.
  split; [exact H1 |]. split; [exact H2 |]. split; [exact H3 |].
  split; [exact H4 |]. split; [exact H5 |].
  exact (parseArgLine_too_many 181 11 t toks "k"%char [newline] H1 H2 H3 H4 H5).
Defined.

Lemma parseArgLine_too_long_witness :
  let t := repeat "a"%char 181 in
  Forall (fun c => isgraph c = true) t /\
  0 < 181 <= Z.of_nat (List.length t) /\ 1 < 11 /\
  fst (sysgen_parseArgLine (t ++ [newline]) 181 11) = - ENOMEM.
Proof.
  intros t.
  assert (H1 : Forall (fun c => isgraph c = true) t).
  { apply Forall_forall. intros x Hx. apply repeat_spec in Hx. subst x.
    reflexivity. }
  assert (H2 : 0 < 181 <= Z.of_nat (List.length t)).
  { unfold t. rewrite repeat_length. lia. }
  assert (H3 : 1 < 11) by lia.
  split; [exact H1 |]. split; [exact H2 |]. split; [exact H3 |].
  exact (parseArgLine_too_long 181 11 t [newline] H1 H2 H3).
Defined.

Lemma maps_take_room_witness :
  let g :=
    snd (sysgen_scripts h32 (Some (many_maps 4))
           (Some (script [ "alias app1 0x1000 0x200";
                           "map ocram 0x10000 0x20000 rwx";
                           "app flash0 app1 ocram m000" ]%string))
           (sysgen_init h32 0 0 2048)) in
  no_wrap h32 2048 /\ 2048 <= 8 * 2 ^ id_bits h32 /\
  List.length (maps g) = 5%nat /\ List.length (progs g) = 1%nat /\
  8 * 5 <= syspage_size g < 2048 /\
  forall k m, nth_error (maps g) k = Some m -> map_id m = Z.of_nat k.
Proof.
  intros g.
  assert (Hnw : no_wrap h32 2048) by (vm_compute; intuition discriminate).
  assert (Hid : 2048 <= 8 * 2 ^ id_bits h32) by (vm_compute; discriminate).
  assert (Hl : List.length (maps g) = 5%nat) by (vm_compute; reflexivity).
  split; [exact Hnw |]. split; [exact Hid |]. split; [exact Hl |].
  split; [vm_compute; reflexivity |].
  destruct (maps_take_room h32 0 0 2048 (Some (many_maps 4))
              (Some (script [ "alias app1 0x1000 0x200";
                              "map ocram 0x10000 0x20000 rwx";
                              "app flash0 app1 ocram m000" ]%string)) Hnw)
    as (Hc & Hlt & Hids).
  fold g in Hc, Hlt, Hids. rewrite Hl in Hc.
  split; [| exact (Hids Hid)].
  split; [exact Hc |]. apply Hlt. intros E. rewrite E in Hl. discriminate Hl.
Defined.
